(** * The Synacor virtual machine of vm.go, embedded in Rocq

    The development follows vm.go: the constants, the [vm] struct, the
    program loader [newVM], the controller operations [start], [wait]
    and [halt], and the interpreter [run] with its closures [get], [set],
    [push] and [pop].

    Conventions of the embedding.
    - A [uint16] is a [Z] in [0, 65536); every arithmetic operation the
      source performs on [uint16] is followed by [u16], its wrap-around.
      [int] is taken to be 64 bits wide, so the product of two [uint16]
      in opcode 10 does not overflow.
    - Arrays and slices are lists indexed with stdpp's lookup and insert;
      an index outside the array is the Go run-time panic, written out.
    - A panic carries either a string (what [assertf] and [panic(fmt.Sprintf ...)]
      raise) or a run-time error (what the Go runtime raises); the deferred
      handler of [run] tells them apart through its type assertion.
    - Channels are flattened to the view of the engine goroutine: [in_] is
      the sequence of bytes queued on [in], [out] the bytes sent so far
      with its closed flag (the consumer is assumed to drain it, so a send
      never blocks), [quit] a closed flag. The goroutine of the controller
      that fills [in] is modelled next to the engine in [moves]. *)

From Stdlib Require Import ZArith Lia.
From stdpp Require Import base list strings pretty.

Local Open Scope Z_scope.

(** ** Constants *)

Definition msize : Z := Z.shiftl 1 15.      (* number of vals in memory *)
Definition nregs : Z := 8.                  (* number of registers *)
Definition vmax : Z := Z.shiftl 1 15 - 1.   (* maximum value *)
Definition vmod : Z := vmax + 1.            (* mod for values *)
Definition vreg : Z := vmax + 1.            (* value referring to register 0 *)

(** Conversions to [uint16] and [byte]. *)
Definition u16 (z : Z) : Z := z mod 65536.
Definition u8 (z : Z) : Z := z mod 256.

(** ** Panics *)

Inductive panic : Type :=
| PString (msg : string)     (* panic(string) *)
| PRuntime (msg : string).   (* a runtime.Error raised by the Go runtime *)

Definition index_panic (i len : Z) : panic :=
  PRuntime ("runtime error: index out of range [" +:+ pretty i +:+
            "] with length " +:+ pretty len).
Definition divide_panic : panic :=
  PRuntime "runtime error: integer divide by zero".
Definition close_panic : panic := PRuntime "close of closed channel".
Definition send_panic : panic := PRuntime "send on closed channel".
Definition assertion_panic : panic :=
  PRuntime "interface conversion: interface {} is runtime.Error, not string".

(** ** The machine *)

Record chan : Type := Chan { sent : list Z; closed : bool }.

(** The error channel [done]: what has been published on it and not yet
    received, and whether it has been closed. *)
Record echan : Type := EChan { published : list (option string); eclosed : bool }.

Record vm : Type := VM {
  mem : list Z;                       (* [msize]uint16 *)
  reg : list Z;                       (* [nregs]uint16 *)
  stack : list Z;                     (* []uint16, top at the end *)
  in_ : list Z;                       (* bytes still to arrive on in *)
  out : chan;
  done : option echan;                (* None is the nil channel *)
  quit : bool                         (* true once quit is closed *)
}.

(** The activation of [run]: its receiver and the two variables its
    closures capture. *)
Record frame : Type := Frame { self : vm; ip : Z; sz : Z }.

Definition with_mem (m : list Z) (v : vm) : vm :=
  VM m (reg v) (stack v) (in_ v) (out v) (done v) (quit v).
Definition with_reg (r : list Z) (v : vm) : vm :=
  VM (mem v) r (stack v) (in_ v) (out v) (done v) (quit v).
Definition with_stack (k : list Z) (v : vm) : vm :=
  VM (mem v) (reg v) k (in_ v) (out v) (done v) (quit v).
Definition with_in (i : list Z) (v : vm) : vm :=
  VM (mem v) (reg v) (stack v) i (out v) (done v) (quit v).
Definition with_out (o : chan) (v : vm) : vm :=
  VM (mem v) (reg v) (stack v) (in_ v) o (done v) (quit v).
Definition with_done (d : option echan) (v : vm) : vm :=
  VM (mem v) (reg v) (stack v) (in_ v) (out v) d (quit v).
Definition with_quit (q : bool) (v : vm) : vm :=
  VM (mem v) (reg v) (stack v) (in_ v) (out v) (done v) q.

Definition on_self (f : vm → vm) (s : frame) : frame :=
  Frame (f (self s)) (ip s) (sz s).
Definition with_ip (i : Z) (s : frame) : frame := Frame (self s) i (sz s).
Definition with_sz (n : Z) (s : frame) : frame := Frame (self s) (ip s) n.

(** ** The monad of [run]'s body

    A computation takes the frame and gives back how control leaves it,
    the frame it leaves behind (also when it panics: what was sent on
    [out] stays sent), and the memory indices it asked for, in order. *)

Inductive flow (A : Type) : Type :=
| Val (a : A)          (* falls through with a value *)
| Panicked (p : panic)
| Returned             (* the bare return of run *)
| Blocked.             (* waits on in, which has nothing left *)
Arguments Val {A} a.
Arguments Panicked {A} p.
Arguments Returned {A}.
Arguments Blocked {A}.

Record ran (A : Type) : Type := Ran { res : flow A; post : frame; touched : list Z }.
Arguments Ran {A} res post touched.
Arguments res {A} r.
Arguments post {A} r.
Arguments touched {A} r.

Definition M (A : Type) : Type := frame → ran A.

Definition unit_ {A} (a : A) : M A := λ s, Ran (Val a) s [].

(** [r] with the indices [t] asked for before it. *)
Definition after {A} (t : list Z) (r : ran A) : ran A :=
  match r with Ran x s' t' => Ran x s' (t ++ t') end.

Definition bind {A B} (c : M A) (k : A → M B) : M B := λ s,
  match c s with
  | Ran (Val a) s' t => after t (k a s')
  | Ran (Panicked p) s' t => Ran (Panicked p) s' t
  | Ran Returned s' t => Ran Returned s' t
  | Ran Blocked s' t => Ran Blocked s' t
  end.

Declare Scope run_scope.
Delimit Scope run_scope with run.
Notation "x <- c ;; k" := (bind c (λ x, k))
  (at level 100, c at next level, right associativity) : run_scope.
Notation "c ;; k" := (bind c (λ _, k))
  (at level 100, right associativity) : run_scope.
Local Open Scope run_scope.

Definition throw {A} (p : panic) : M A := λ s, Ran (Panicked p) s [].
Definition return_ {A} : M A := λ s, Ran Returned s [].
Definition block {A} : M A := λ s, Ran Blocked s [].
Definition reads {A} (f : frame → A) : M A := λ s, Ran (Val (f s)) s [].
Definition update (f : frame → frame) : M unit := λ s, Ran (Val tt) (f s) [].

(** cond returns a if c is true and b otherwise. *)
Definition cond (c : bool) (a b : Z) : Z := if c then a else b.

(** assertf panics with the supplied message if v is false. *)
Definition assertf (v : bool) (msg : string) : M unit :=
  if v then unit_ tt else throw (PString msg).

(** panicf panics with the supplied message. *)
Definition panicf (msg : string) : M unit := assertf false msg.

(** [vm.mem[i]] as an rvalue and as the target of an assignment. *)
Definition load (i : Z) : M Z := λ s,
  match mem (self s) !! Z.to_nat i with
  | Some w => Ran (Val w) s [i]
  | None => Ran (Panicked (index_panic i (Z.of_nat (length (mem (self s)))))) s [i]
  end.

Definition store (i w : Z) : M unit := λ s,
  if decide (Z.to_nat i < length (mem (self s)))%nat
  then Ran (Val tt) (on_self (with_mem (<[Z.to_nat i := w]> (mem (self s)))) s) [i]
  else Ran (Panicked (index_panic i (Z.of_nat (length (mem (self s)))))) s [i].

(** [vm.reg[i]], read and written. *)
Definition load_reg (i : Z) : M Z := λ s,
  match reg (self s) !! Z.to_nat i with
  | Some w => Ran (Val w) s []
  | None => Ran (Panicked (index_panic i (Z.of_nat (length (reg (self s)))))) s []
  end.

Definition store_reg (i w : Z) : M unit := λ s,
  if decide (Z.to_nat i < length (reg (self s)))%nat
  then Ran (Val tt) (on_self (with_reg (<[Z.to_nat i := w]> (reg (self s)))) s) []
  else Ran (Panicked (index_panic i (Z.of_nat (length (reg (self s)))))) s [].

(** Returns the value corresponding to the 1-indexed argument.
    The argument may be either a literal value or a register. *)
Definition get (arg : Z) : M Z :=
  assertf (0 <? arg) ("invalid arg " +:+ pretty arg) ;;
  n <- reads sz ;;
  update (with_sz (cond (n <? u16 (arg + 1)) (u16 (arg + 1)) n)) ;;
  i <- reads ip ;;
  let addr := u16 (i + arg) in
  av <- load addr ;;
  if av <=? vmax then unit_ av
  else
    assertf (av <? vreg + nregs)
            ("bad value " +:+ pretty av +:+ " at " +:+ pretty addr) ;;
    load_reg (u16 (av - vreg)).

(** Sets the 1-indexed argument to the supplied value.
    The argument must reference a register. *)
Definition set (arg val : Z) : M unit :=
  assertf (0 <? arg) ("invalid arg " +:+ pretty arg) ;;
  n <- reads sz ;;
  update (with_sz (cond (n <? u16 (arg + 1)) (u16 (arg + 1)) n)) ;;
  i <- reads ip ;;
  let addr := u16 (i + arg) in
  av <- load addr ;;
  assertf ((vreg <=? av) && (av <? vreg + nregs))
          ("bad register ref " +:+ pretty av +:+ " at " +:+ pretty addr) ;;
  store_reg (u16 (av - vreg)) val.

Definition push (v : Z) : M unit :=
  update (on_self (λ m, with_stack (stack m ++ [v]) m)).

Definition pop : M Z :=
  k <- reads (λ s, stack (self s)) ;;
  assertf (0 <? Z.of_nat (length k)) "pop with empty stack" ;;
  match last k with
  | Some v => update (on_self (with_stack (take (length k - 1) k))) ;; unit_ v
  | None => throw (index_panic (-1) 0)
  end.

(** [close(c)] on a channel flag. *)
Definition close_quit : M unit :=
  q <- reads (λ s, quit (self s)) ;;
  if q then throw close_panic else update (on_self (with_quit true)).

(** [vm.out <- b] *)
Definition send_out (b : Z) : M unit :=
  o <- reads (λ s, out (self s)) ;;
  if closed o then throw send_panic
  else update (on_self (with_out (Chan (sent o ++ [b]) false))).

(** The select of opcode 20. The loop reaches it with quit open: a byte is
    received if one is queued, and otherwise the goroutine waits. (With
    quit closed by a request that arrived during the turn, the case of
    quit is the one taken here.) *)
Definition recv_in : M Z :=
  q <- reads (λ s, quit (self s)) ;;
  if q then return_
  else
    i <- reads (λ s, in_ (self s)) ;;
    match i with
    | v :: rest => update (on_self (with_in rest)) ;; unit_ v
    | [] => block
    end.

(** The switch on the opcode. *)
Definition exec (op : Z) : M unit :=
  match op with
  | 0 => close_quit
  | 1 => b <- get 2 ;; set 1 b
  | 2 => a <- get 1 ;; push a
  | 3 => v <- pop ;; set 1 v
  | 4 => b <- get 2 ;; c <- get 3 ;; set 1 (cond (b =? c) 1 0)
  | 5 => b <- get 2 ;; c <- get 3 ;; set 1 (cond (c <? b) 1 0)
  | 6 => a <- get 1 ;; update (with_ip a) ;; update (with_sz 0)
  | 7 => addr <- get 2 ;; a <- get 1 ;;
         if negb (a =? 0) then update (with_ip addr) ;; update (with_sz 0)
         else unit_ tt
  | 8 => addr <- get 2 ;; a <- get 1 ;;
         if a =? 0 then update (with_ip addr) ;; update (with_sz 0)
         else unit_ tt
  | 9 => b <- get 2 ;; c <- get 3 ;; set 1 (u16 (b + c) mod vmod)
  | 10 => b <- get 2 ;; c <- get 3 ;; set 1 (u16 ((b * c) mod vmod))
  | 11 => b <- get 2 ;; c <- get 3 ;;
          if c =? 0 then throw divide_panic else set 1 (b mod c)
  | 12 => b <- get 2 ;; c <- get 3 ;; set 1 (Z.land b c)
  | 13 => b <- get 2 ;; c <- get 3 ;; set 1 (Z.lor b c)
  | 14 => b <- get 2 ;; set 1 (Z.land (Z.lxor b 65535) vmax)
  | 15 => b <- get 2 ;; w <- load b ;; set 1 w
  | 16 => a <- get 1 ;; b <- get 2 ;; store a b
  | 17 => addr <- get 1 ;;
          i <- reads ip ;; n <- reads sz ;; push (u16 (i + n)) ;;
          update (with_ip addr) ;; update (with_sz 0)
  | 18 => a <- pop ;; update (with_ip a) ;; update (with_sz 0)
  | 19 => a <- get 1 ;; send_out (u8 a)
  | 20 => v <- recv_in ;; set 1 v
  | 21 => unit_ tt
  | _ => i <- reads ip ;;
         throw (PString ("invalid op " +:+ pretty op +:+ " at " +:+ pretty i))
  end.

(** [ip += sz] *)
Definition advance : M unit :=
  i <- reads ip ;; n <- reads sz ;; update (with_ip (u16 (i + n))).

(** One turn of the for loop of [run]. *)
Definition turn : M unit :=
  q <- reads (λ s, quit (self s)) ;;
  if q then return_
  else
    i <- reads ip ;;
    op <- load i ;;
    update (with_sz 1) ;;
    exec op ;;
    advance.

(** The loop, with the number of turns it may take. [None]: more turns
    are needed. *)
Fixpoint loop (fuel : nat) (s : frame) : option (ran unit) :=
  match fuel with
  | O => None
  | S fuel' =>
      match turn s with
      | Ran (Val _) s' t => after t <$> loop fuel' s'
      | r => Some r
      end
  end.

(** How a call of [run] ends. *)
Inductive outcome : Type :=
| Exited (err : option string) (v : vm)  (* run returned err *)
| Crashed (p : panic) (v : vm)           (* a panic left run: the process dies *)
| Waiting (v : vm).                      (* blocked on in for ever *)

(** The deferred function of [run]. *)
Definition deferred (r : flow unit) (v : vm) : outcome :=
  let close_out (err : option string) :=
    if closed (out v) then Crashed close_panic v
    else Exited err (with_out (Chan (sent (out v)) true) v) in
  match r with
  | Panicked (PString msg) => close_out (Some msg)
  | Panicked (PRuntime _) => Crashed assertion_panic v
  | Returned | Val _ => close_out None
  | Blocked => Waiting v
  end.

Definition run (fuel : nat) (v : vm) : option outcome :=
  match loop fuel (Frame v 0 0) with
  | Some r => Some (deferred (res r) (self (post r)))
  | None => None
  end.

(** [halt], called by the controller. *)
Definition halt (v : vm) : panic + vm :=
  if quit v then inl close_panic else inr (with_quit true v).

(** [start] runs the engine to its end and publishes what [run] returned;
    a run that crashes or waits for ever publishes nothing. *)
Definition start (fuel : nat) (v : vm) : option (panic + outcome) :=
  match done v with
  | Some _ => Some (inl (PString "already running"))
  | None =>
      match run fuel (with_done (Some (EChan [] false)) v) with
      | Some (Exited err v') =>
          Some (inr (Exited err (with_done (Some (EChan [err] true)) v')))
      | Some o => Some (inr o)
      | None => None
      end
  end.

(** [wait]: the error received from [done], or [None] when the receive
    would block. *)
Definition wait (v : vm) : panic + option (option string * vm) :=
  match done v with
  | None => inl (PString "not started")
  | Some (EChan (e :: rest) c) => inr (Some (e, with_done (Some (EChan rest c)) v))
  | Some (EChan [] true) => inr (Some (None, v))
  | Some (EChan [] false) => inr None
  end.

(** ** The loader *)

Inductive error : Type :=
| EOF                       (* io.EOF *)
| ErrUnexpectedEOF          (* io.ErrUnexpectedEOF *)
| ErrOther (msg : string).  (* any other error of the reader *)

(** An [io.Reader]: the bytes it still delivers, and the error its Read
    returns once they are used up ([EOF] for a clean end). *)
Record reader : Type := Reader { pending : list Z; ending : error }.

(** What a call of [newVM] gives. *)
Inductive loaded : Type :=
| Loaded (v : vm)            (* vm, nil *)
| Failed (e : error)         (* nil, err *)
| LoadPanic (p : panic).     (* a run-time panic leaves newVM *)

(** The for loop of [newVM]. The argument [&vm.mem[nr]] is evaluated,
    bounds check included, before [binary.Read] is called. [binary.Read]
    into a [*uint16] is [io.ReadFull] of two bytes, [io.EOF] if none
    came, [io.ErrUnexpectedEOF] if the source ended after one, followed
    by [LittleEndian.Uint16]. *)
Fixpoint fill (bs : list Z) (e : error) (nr : Z) (v : vm) : loaded :=
  if decide (Z.to_nat nr < length (mem v))%nat then
    match bs with
    | b0 :: b1 :: rest =>
        fill rest e (nr + 1)
             (with_mem (<[Z.to_nat nr := Z.lor b0 (Z.shiftl b1 8)]> (mem v)) v)
    | [_] => Failed (match e with EOF => ErrUnexpectedEOF | _ => e end)
    | [] => match e with EOF => Loaded v | _ => Failed e end
    end
  else LoadPanic (index_panic nr (Z.of_nat (length (mem v)))).

Definition newVM (r : reader) : loaded :=
  fill (pending r) (ending r) 0
       (VM (replicate (Z.to_nat msize) 0) (replicate (Z.to_nat nregs) 0) []
           [] (Chan [] false) None false).

(** [bs] sent on [in], behind what is queued there. *)
Definition feed (bs : list Z) (v : vm) : vm := with_in (in_ v ++ bs) v.

(** ** The engine next to the producer

    The controller starts the engine on its own goroutine and sends the
    bytes of its input on [in] from another, one at a time, waiting while
    the channel, of capacity 2048, is full. [todo] is what the producer
    has still to send; nobody requests cancellation. *)

Definition in_capacity : Z := 2048.

Record world : Type := World { todo : list Z; engine : frame }.

Inductive moves : world → world → Prop :=
| moves_send b rest s :
    Z.of_nat (length (in_ (self s))) < in_capacity →
    moves (World (b :: rest) s) (World rest (on_self (feed [b]) s))
| moves_turn rest s :
    res (turn s) = Val tt →
    moves (World rest s) (World rest (post (turn s))).

(** The executions that come to an end: the engine leaves its loop
    (a turn that waits on an empty [in] is not an end, the engine takes it
    again once the producer has moved). *)
Inductive ends : world → outcome → Prop :=
| ends_now rest s :
    (∀ u, res (turn s) ≠ Val u) → res (turn s) ≠ Blocked →
    ends (World rest s) (deferred (res (turn s)) (self (post (turn s))))
| ends_later w w' o : moves w w' → ends w' o → ends w o.

(** ** Well-formed machines

    The types of the source, stated on the embedding: the two arrays
    have their lengths, every [uint16] is in range and so is every byte
    to arrive. *)

Definition is_u16 (z : Z) : bool := (0 <=? z) && (z <? 65536).
Definition is_u8 (z : Z) : bool := (0 <=? z) && (z <? 256).

Definition wf (v : vm) : bool :=
  (Z.of_nat (length (mem v)) =? msize) && (Z.of_nat (length (reg v)) =? nregs)
  && forallb is_u16 (mem v) && forallb is_u16 (reg v)
  && forallb is_u16 (stack v) && forallb is_u8 (in_ v).

Definition wf_frame (s : frame) : bool := wf (self s) && is_u16 (ip s).

(** The frames a run goes through, from the machine it is started on. *)
Inductive reachable (v : vm) : frame → Prop :=
| reach_start : reachable v (Frame v 0 0)
| reach_turn s : reachable v s → res (turn s) = Val tt → reachable v (post (turn s)).

(** The memory array holding the words [ws] from address 0, zero after. *)
Definition image (ws : list Z) : list Z :=
  ws ++ replicate (Z.to_nat msize - length ws) 0.

(** The machine [newVM] builds, on the memory [m]. *)
Definition fresh (m : list Z) : vm :=
  VM m (replicate (Z.to_nat nregs) 0) [] [] (Chan [] false) None false.

(** The little-endian bytes of a sequence of words. *)
Definition bytes_of (ws : list Z) : list Z :=
  w ← ws; [Z.land w 255; Z.shiftr w 8].

(** The words a byte sequence decodes to, two bytes a word, low byte first. *)
Fixpoint decode (bs : list Z) : list Z :=
  match bs with
  | b0 :: b1 :: rest => Z.lor b0 (Z.shiftl b1 8) :: decode rest
  | _ => []
  end.

(** ** The vocabulary of the statements *)

(** The address of the operand at position [arg], and the frame once the
    instruction size has been raised to cover it. *)
Definition operand (arg : Z) (s : frame) : Z := u16 (ip s + arg).
Definition bump (arg : Z) (s : frame) : frame :=
  with_sz (cond (sz s <? u16 (arg + 1)) (u16 (arg + 1)) (sz s)) s.

(** [v'] is [v] but for the contents of register [r]. *)
Definition same_but_reg (r : nat) (v v' : vm) : Prop :=
  mem v' = mem v ∧ stack v' = stack v ∧ in_ v' = in_ v ∧ out v' = out v
  ∧ done v' = done v ∧ quit v' = quit v ∧ length (reg v') = length (reg v)
  ∧ ∀ j, j ≠ r → reg v' !! j = reg v !! j.

(** [c] never reopens [quit]. *)
Definition steady {A} (c : M A) : Prop :=
  ∀ s, quit (self s) = true → quit (self (post (c s))) = true.

Definition machine_of (o : outcome) : vm :=
  match o with Exited _ v | Crashed _ v | Waiting v => v end.

(** The completion result: the error [run] returned, if it returned. *)
Definition returned (o : outcome) : option (option string) :=
  match o with Exited err _ => Some err | _ => None end.

(** [c] does not look at the bytes behind the one it receives: with more
    bytes queued behind, it does the same, unless it was waiting. *)
Definition queue_blind {A} (c : M A) : Prop :=
  ∀ s more, res (c s) ≠ Blocked →
    c (on_self (feed more) s)
    = Ran (res (c s)) (on_self (feed more) (post (c s))) (touched (c s)).

(** The frame the engine would be in had the producer sent everything. *)
Definition merged (w : world) : frame := on_self (feed (todo w)) (engine w).

(** The outcome but for what is left on the inbound channel. *)
Definition drained (o : outcome) : outcome :=
  match o with
  | Exited err v => Exited err (with_in [] v)
  | Crashed p v => Crashed p (with_in [] v)
  | Waiting v => Waiting (with_in [] v)
  end.

(** A program logic for the body of [run].

    [safe c Q s]: run from the well-formed frame [s], the computation [c]
    leaves a well-formed frame, yields a value in [Q] when it falls
    through, and every memory index it asks for is a [uint16] that lies
    inside the array, unless it is the index the bounds check of Go then
    panics on. *)

Definition in_bounds {A} (r : ran A) : Prop :=
  ∀ i, i ∈ touched r →
       0 ≤ i < 65536 ∧ (i < msize ∨ res r = Panicked (index_panic i msize)).

Definition safe {A} (c : M A) (Q : A → Prop) (s : frame) : Prop :=
  wf_frame (post (c s)) ∧ (∀ a, res (c s) = Val a → Q a) ∧ in_bounds (c s).

(** ** More vocabulary of the statements *)

(** The results of the three-operand opcodes, as the comments of their
    cases state them. *)
Definition alu (op b c : Z) : Z :=
  match op with
  | 4 => if b =? c then 1 else 0
  | 5 => if c <? b then 1 else 0
  | 9 => (b + c) mod 32768
  | 10 => (b * c) mod 32768
  | 11 => b mod c
  | 12 => Z.land b c
  | 13 => Z.lor b c
  | _ => 0
  end.

(** The frame a turn from [s] leaves when it has written [val] to the
    register the word [a] refers to and stepped over [n] words. *)
Definition wrote (s : frame) (a val n : Z) : frame :=
  Frame (with_reg (<[Z.to_nat (a - 32768) := val]> (reg (self s))) (self s))
        (u16 (ip s + n)) n.

(** [c] leaves the part [f] of the machine as it found it, however it ends. *)
Definition untouched {A B} (f : vm → B) (c : M A) : Prop :=
  ∀ s, f (self (post (c s))) = f (self s).

(** [c] adds to what has been sent on [out], and neither closes nor reopens it. *)
Definition appends {A} (c : M A) : Prop :=
  ∀ s, ∃ more,
    sent (out (self (post (c s)))) = sent (out (self s)) ++ more
    ∧ closed (out (self (post (c s)))) = closed (out (self s)).

(** [c] never looks at [done]: on a machine with another [done] it does the
    same. *)
Definition done_blind {A} (c : M A) : Prop :=
  ∀ d s, c (on_self (with_done d) s)
         = Ran (res (c s)) (on_self (with_done d) (post (c s))) (touched (c s)).

(** The number of words of the instruction of opcode [op], for the
    opcodes that fall through to the next instruction. *)
Definition width (op : Z) : Z :=
  match op with
  | 0 | 21 => 1
  | 2 | 3 | 19 | 20 => 2
  | 1 | 14 | 15 | 16 => 3
  | 4 | 5 | 9 | 10 | 11 | 12 | 13 => 4
  | _ => 0
  end.

(** [c] leaves the instruction pointer alone and, when it yields a value,
    has taken the instruction size from [n] to [f n]. *)
Definition sized {A} (f : Z → Z) (c : M A) : Prop :=
  ∀ s, ip (post (c s)) = ip s
       ∧ ∀ a, res (c s) = Val a → sz (post (c s)) = f (sz s).

(** ** The controller

    [main] hands the machine to two goroutines: one sends the lines of
    standard input on [in] and requests the halt when the input ends, the
    other prints what the machine sends on [out]. *)














(** * Properties *)

Section Basics.

Lemma msize_eq : msize = 32768.
Proof. reflexivity. Qed.
Lemma nregs_eq : nregs = 8.
Proof. reflexivity. Qed.
Lemma vmax_eq : vmax = 32767.
Proof. reflexivity. Qed.
Lemma vmod_eq : vmod = 32768.
Proof. reflexivity. Qed.
Lemma vreg_eq : vreg = 32768.
Proof. reflexivity. Qed.

Lemma is_u16_spec z : is_u16 z ↔ 0 ≤ z < 65536.
Proof. unfold is_u16. rewrite andb_True, !Is_true_true, Z.leb_le, Z.ltb_lt. done. Qed.

Lemma is_u8_spec z : is_u8 z ↔ 0 ≤ z < 256.
Proof. unfold is_u8. rewrite andb_True, !Is_true_true, Z.leb_le, Z.ltb_lt. done. Qed.

Lemma u16_range z : 0 ≤ u16 z < 65536.
Proof. unfold u16. apply Z.mod_pos_bound. lia. Qed.

Lemma u16_id z : 0 ≤ z < 65536 → u16 z = z.
Proof. unfold u16. intros. by apply Z.mod_small. Qed.

Lemma wf_spec v :
  wf v ↔ length (mem v) = Z.to_nat msize ∧ length (reg v) = Z.to_nat nregs
         ∧ Forall is_u16 (mem v) ∧ Forall is_u16 (reg v)
         ∧ Forall is_u16 (stack v) ∧ Forall is_u8 (in_ v).
Proof.
  unfold wf. rewrite !andb_True, !forallb_True, !Is_true_true, !Z.eqb_eq.
  rewrite msize_eq, nregs_eq. intuition lia.
Qed.

(** The ranges of the values the opcodes compute. *)

Lemma is_u16_cond (c : bool) : is_u16 (cond c 1 0).
Proof. by destruct c. Qed.

Lemma is_u16_u16 z : is_u16 (u16 z).
Proof. apply is_u16_spec, u16_range. Qed.

Lemma is_u16_vmod z : is_u16 (z mod vmod).
Proof.
  apply is_u16_spec. rewrite vmod_eq.
  pose proof (Z.mod_pos_bound z 32768). lia.
Qed.

Lemma is_u16_mod b c : is_u16 b → is_u16 c → c ≠ 0 → is_u16 (b mod c).
Proof.
  rewrite !is_u16_spec. intros ? ? ?.
  pose proof (Z.mod_pos_bound b c). lia.
Qed.

Lemma below_pow2 a n : 0 < n → 0 ≤ a → a < 2 ^ n ↔ Z.log2 a < n.
Proof.
  intros Hn Ha. destruct (decide (a = 0)) as [->|].
  - cbn. split; [lia|]. intros _. apply Z.pow_pos_nonneg; lia.
  - apply Z.log2_lt_pow2. lia.
Qed.

Lemma is_u16_land b c : is_u16 b → is_u16 c → is_u16 (Z.land b c).
Proof.
  rewrite !is_u16_spec. intros [Hb Hb'] [Hc Hc'].
  assert (0 ≤ Z.land b c) by (apply Z.land_nonneg; by left).
  split; [done|]. change 65536 with (2 ^ 16) in *.
  apply below_pow2; [lia|done|]. apply below_pow2 in Hb'; [|lia|done].
  pose proof (Z.log2_land b c Hb Hc). lia.
Qed.

Lemma is_u16_lor b c : is_u16 b → is_u16 c → is_u16 (Z.lor b c).
Proof.
  rewrite !is_u16_spec. intros [Hb Hb'] [Hc Hc'].
  assert (0 ≤ Z.lor b c) by (by apply Z.lor_nonneg).
  split; [done|]. change 65536 with (2 ^ 16) in *.
  apply below_pow2; [lia|done|].
  apply below_pow2 in Hb'; [|lia|done]. apply below_pow2 in Hc'; [|lia|done].
  rewrite (Z.log2_lor b c Hb Hc). lia.
Qed.

Lemma is_u16_not b : is_u16 (Z.land (Z.lxor b 65535) vmax).
Proof.
  apply is_u16_spec. change vmax with (Z.ones 15).
  rewrite Z.land_ones by lia. pose proof (Z.mod_pos_bound (Z.lxor b 65535) (2 ^ 15)).
  lia.
Qed.

End Basics.

(** ** Laws of the monad *)

Lemma after_nil {A} (r : ran A) : after [] r = r.
Proof. by destruct r. Qed.

Lemma res_after {A} t (r : ran A) : res (after t r) = res r.
Proof. by destruct r. Qed.

Lemma post_after {A} t (r : ran A) : post (after t r) = post r.
Proof. by destruct r. Qed.

Lemma touched_after {A} t (r : ran A) : touched (after t r) = t ++ touched r.
Proof. by destruct r. Qed.

Lemma bind_unit {A B} (a : A) (k : A → M B) s : bind (unit_ a) k s = k a s.
Proof. unfold bind, unit_. apply after_nil. Qed.

Lemma bind_reads {A B} (f : frame → A) (k : A → M B) s :
  bind (reads f) k s = k (f s) s.
Proof. unfold bind, reads. apply after_nil. Qed.

Lemma bind_update {B} f (k : unit → M B) s : bind (update f) k s = k tt (f s).
Proof. unfold bind, update. apply after_nil. Qed.

Lemma bind_throw {A B} p (k : A → M B) s :
  bind (throw p) k s = Ran (Panicked p) s [].
Proof. reflexivity. Qed.

Lemma bind_val {A B} (c : M A) (k : A → M B) s a s' t :
  c s = Ran (Val a) s' t → bind c k s = after t (k a s').
Proof. unfold bind. by intros ->. Qed.

Lemma bind_panicked {A B} (c : M A) (k : A → M B) s p s' t :
  c s = Ran (Panicked p) s' t → bind c k s = Ran (Panicked p) s' t.
Proof. unfold bind. by intros ->. Qed.

Lemma bind_res_step {A B} (c : M A) (k : A → M B) s a :
  res (c s) = Val a → res (bind c k s) = res (k a (post (c s))).
Proof.
  unfold bind. destruct (c s) as [x s' t]. cbn. intros ->.
  by rewrite res_after.
Qed.

Lemma bind_res_panicked {A B} (c : M A) (k : A → M B) s p :
  res (c s) = Panicked p → res (bind c k s) = Panicked p.
Proof. unfold bind. destruct (c s) as [x s' t]. cbn. by intros ->. Qed.

(** What [bind] gives, read off the three projections. *)
Lemma bind_res_val {A B} (c : M A) (k : A → M B) s b :
  res (bind c k s) = Val b →
  ∃ a, res (c s) = Val a ∧ res (k a (post (c s))) = Val b
       ∧ post (bind c k s) = post (k a (post (c s)))
       ∧ touched (bind c k s) = touched (c s) ++ touched (k a (post (c s))).
Proof.
  unfold bind. destruct (c s) as [[a|p| |] s' t]; cbn; try done.
  rewrite res_after, post_after, touched_after. eauto.
Qed.

(** ** The closures [get] and [set], case by case *)

Lemma get_eq arg s :
  0 < arg →
  get arg s =
    let addr := operand arg s in
    match mem (self s) !! Z.to_nat addr with
    | None =>
        Ran (Panicked (index_panic addr (Z.of_nat (length (mem (self s))))))
            (bump arg s) [addr]
    | Some av =>
        if av <=? vmax then Ran (Val av) (bump arg s) [addr]
        else if av <? vreg + nregs then
          match reg (self s) !! Z.to_nat (u16 (av - vreg)) with
          | Some w => Ran (Val w) (bump arg s) [addr]
          | None =>
              Ran (Panicked (index_panic (u16 (av - vreg))
                                         (Z.of_nat (length (reg (self s))))))
                  (bump arg s) [addr]
          end
        else Ran (Panicked (PString ("bad value " +:+ pretty av +:+ " at "
                                     +:+ pretty addr))) (bump arg s) [addr]
    end.
Proof.
  intros Harg. apply Z.ltb_lt in Harg.
  unfold get, bind, assertf, reads, update, load, load_reg, operand, bump, unit_, throw.
  rewrite Harg. cbn [res post touched self with_sz app ip after].
  destruct (mem (self s) !! _) as [av|]; [|reflexivity].
  destruct (av <=? vmax); [reflexivity|].
  destruct (av <? vreg + nregs); [|reflexivity]. cbn [self with_sz].
  destruct (reg (self s) !! _); reflexivity.
Qed.

Lemma set_eq arg val s :
  0 < arg →
  set arg val s =
    let addr := operand arg s in
    match mem (self s) !! Z.to_nat addr with
    | None =>
        Ran (Panicked (index_panic addr (Z.of_nat (length (mem (self s))))))
            (bump arg s) [addr]
    | Some av =>
        if (vreg <=? av) && (av <? vreg + nregs) then
          if decide (Z.to_nat (u16 (av - vreg)) < length (reg (self s)))%nat then
            Ran (Val tt)
                (on_self (with_reg (<[Z.to_nat (u16 (av - vreg)) := val]>
                                      (reg (self s)))) (bump arg s)) [addr]
          else
            Ran (Panicked (index_panic (u16 (av - vreg))
                                       (Z.of_nat (length (reg (self s))))))
                (bump arg s) [addr]
        else Ran (Panicked (PString ("bad register ref " +:+ pretty av +:+ " at "
                                     +:+ pretty addr))) (bump arg s) [addr]
    end.
Proof.
  intros Harg. apply Z.ltb_lt in Harg.
  unfold set, bind, assertf, reads, update, load, store_reg, operand, bump, unit_, throw.
  rewrite Harg. cbn [res post touched self with_sz app ip after].
  destruct (mem (self s) !! _) as [av|]; [|reflexivity].
  destruct ((vreg <=? av) && (av <? vreg + nregs)); [|reflexivity].
  cbn [self with_sz].
  destruct (decide _); reflexivity.
Qed.

Lemma pop_eq s :
  pop s =
    match last (stack (self s)) with
    | Some v =>
        Ran (Val v)
            (on_self (with_stack (take (length (stack (self s)) - 1)
                                       (stack (self s)))) s) []
    | None => Ran (Panicked (PString "pop with empty stack")) s []
    end.
Proof.
  unfold pop. rewrite bind_reads.
  destruct (stack (self s)) as [|x k _] using rev_ind; [reflexivity|].
  rewrite last_snoc, length_app. cbn [length].
  unfold assertf. replace (0 <? _) with true by (symmetry; apply Z.ltb_lt; lia).
  rewrite bind_unit. reflexivity.
Qed.

(** ** Well-formedness is kept by every update of the machine *)

Lemma wf_frame_spec s : wf_frame s ↔ wf (self s) ∧ 0 ≤ ip s < 65536.
Proof. unfold wf_frame. by rewrite andb_True, is_u16_spec. Qed.

Section WellFormed.

Context (s : frame) (Hwf : wf_frame s).

Lemma wf_fields :
  length (mem (self s)) = Z.to_nat msize
  ∧ length (reg (self s)) = Z.to_nat nregs
  ∧ Forall is_u16 (mem (self s)) ∧ Forall is_u16 (reg (self s))
  ∧ Forall is_u16 (stack (self s)) ∧ Forall is_u8 (in_ (self s))
  ∧ 0 ≤ ip s < 65536.
Proof.
  destruct (proj1 (wf_frame_spec s) Hwf) as [Hv Hip].
  apply wf_spec in Hv. tauto.
Qed.

Lemma wf_with_sz n : wf_frame (with_sz n s).
Proof. exact Hwf. Qed.

Lemma wf_with_ip a : is_u16 a → wf_frame (with_ip a s).
Proof.
  destruct wf_fields as (? & ? & ? & ? & ? & ? & ?).
  rewrite wf_frame_spec, wf_spec, is_u16_spec. cbn. tauto.
Qed.

Lemma wf_with_reg i w :
  is_u16 w → wf_frame (on_self (with_reg (<[i := w]> (reg (self s)))) s).
Proof.
  destruct wf_fields as (? & ? & ? & ? & ? & ? & ?). intros Hw.
  rewrite wf_frame_spec, wf_spec. cbn. rewrite length_insert.
  repeat split; try done; try lia. by apply Forall_insert.
Qed.

Lemma wf_with_mem i w :
  is_u16 w → wf_frame (on_self (with_mem (<[i := w]> (mem (self s)))) s).
Proof.
  destruct wf_fields as (? & ? & ? & ? & ? & ? & ?). intros Hw.
  rewrite wf_frame_spec, wf_spec. cbn. rewrite length_insert.
  repeat split; try done; try lia. by apply Forall_insert.
Qed.

Lemma wf_push v :
  is_u16 v → wf_frame (on_self (λ m, with_stack (stack m ++ [v]) m) s).
Proof.
  destruct wf_fields as (? & ? & ? & ? & ? & ? & ?). intros Hv.
  rewrite wf_frame_spec, wf_spec. cbn.
  repeat split; try done; try lia.
  apply Forall_app. split; [done|]. by apply Forall_singleton.
Qed.

Lemma wf_take n : wf_frame (on_self (with_stack (take n (stack (self s)))) s).
Proof.
  destruct wf_fields as (? & ? & ? & ? & ? & ? & ?).
  rewrite wf_frame_spec, wf_spec. cbn.
  repeat split; try done; try lia. by apply Forall_take.
Qed.

Lemma wf_with_in v rest :
  in_ (self s) = v :: rest → is_u16 v ∧ wf_frame (on_self (with_in rest) s).
Proof.
  destruct wf_fields as (? & ? & ? & ? & ? & Hin & ?). intros E.
  rewrite E in Hin. apply Forall_cons in Hin as [Hv ?]. apply is_u8_spec in Hv.
  split; [apply is_u16_spec; lia|].
  rewrite wf_frame_spec, wf_spec. cbn. repeat split; try done; lia.
Qed.

Lemma wf_with_out o : wf_frame (on_self (with_out o) s).
Proof. exact Hwf. Qed.

Lemma wf_with_quit q : wf_frame (on_self (with_quit q) s).
Proof. exact Hwf. Qed.

Lemma wf_mem_length : Z.of_nat (length (mem (self s))) = msize.
Proof. destruct wf_fields as (Hlen & _). rewrite Hlen, msize_eq. lia. Qed.

Lemma wf_mem_lookup i w :
  mem (self s) !! i = Some w → is_u16 w ∧ Z.of_nat i < msize.
Proof.
  destruct wf_fields as (Hlen & _ & Hm & _). intros Hi. split.
  - exact (Forall_lookup_1 _ _ _ _ Hm Hi).
  - apply lookup_lt_Some in Hi. rewrite msize_eq in *. lia.
Qed.

Lemma wf_reg_lookup i w : reg (self s) !! i = Some w → is_u16 w.
Proof.
  destruct wf_fields as (_ & _ & _ & Hr & _). intros Hi.
  exact (Forall_lookup_1 _ _ _ _ Hr Hi).
Qed.

Lemma wf_stack_last v : last (stack (self s)) = Some v → is_u16 v.
Proof.
  destruct wf_fields as (_ & _ & _ & _ & Hk & _). intros Hv.
  rewrite Forall_forall in Hk. apply Hk. by apply last_Some_elem_of.
Qed.

End WellFormed.

(** ** A program logic for the body of [run] *)

Section Safe.

Lemma in_bounds_nil {A} (x : flow A) s : in_bounds (Ran x s []).
Proof. intros i Hi. by apply elem_of_nil in Hi. Qed.

Lemma safe_bind {A B} (c : M A) (k : A → M B) Q R s :
  safe c Q s →
  (∀ a, Q a → wf_frame (post (c s)) → safe (k a) R (post (c s))) →
  safe (bind c k) R s.
Proof.
  unfold safe, bind, in_bounds.
  destruct (c s) as [[a|p| |] s' t]; cbn [res post touched];
    intros (Hwf & HQ & Hb) Hk; try (split; [done|split; [done|]]).
  - destruct (Hk a (HQ a eq_refl) Hwf) as (Hwf' & HR & Hb').
    rewrite res_after, post_after, touched_after.
    split; [done|split; [done|]]. intros i [Hi|Hi]%elem_of_app; [|by apply Hb'].
    destruct (Hb i Hi) as [? [?|?]]; [by split; [|left]|done].
  - intros i Hi. destruct (Hb i Hi) as [? [?|[= ->]]]; (split; [done|]);
      [by left|by right].
  - intros i Hi. destruct (Hb i Hi) as [? [?|?]]; [by split; [|left]|done].
  - intros i Hi. destruct (Hb i Hi) as [? [?|?]]; [by split; [|left]|done].
Qed.

Lemma safe_seq {A B} (c : M A) (k : A → M B) Q R s :
  safe c Q s → (∀ a s', Q a → wf_frame s' → safe (k a) R s') →
  safe (bind c k) R s.
Proof. intros Hc Hk. eapply safe_bind; [done|]. intros. by apply Hk. Qed.

Lemma safe_weaken {A} (c : M A) (Q R : A → Prop) s :
  safe c Q s → (∀ a, Q a → R a) → safe c R s.
Proof. intros (? & HQ & ?) HR. split; [done|split; [|done]]. eauto. Qed.

Lemma safe_bind_reads {A B} (f : frame → A) (k : A → M B) Q s :
  safe (k (f s)) Q s → safe (bind (reads f) k) Q s.
Proof. unfold safe. by rewrite bind_reads. Qed.

Lemma safe_bind_update {B} f (k : unit → M B) Q s :
  safe (k tt) Q (f s) → safe (bind (update f) k) Q s.
Proof. unfold safe. by rewrite bind_update. Qed.

Lemma safe_update f (Q : unit → Prop) s : wf_frame (f s) → Q tt → safe (update f) Q s.
Proof.
  intros Hwf HQ. split; [done|split; [|apply in_bounds_nil]].
  by intros [] _.
Qed.

End Safe.

(** The rules of the primitives, from a well-formed frame. *)

Section SafePrimitives.

Context (s : frame) (Hwf : wf_frame s).

Lemma safe_unit {A} (a : A) (Q : A → Prop) : Q a → safe (unit_ a) Q s.
Proof.
  intros Ha. split; [done|split; [|apply in_bounds_nil]].
  by intros ? [= <-].
Qed.

Lemma safe_stop {A} (x : flow A) (Q : A → Prop) :
  (∀ a, x ≠ Val a) → safe (λ s, Ran x s []) Q s.
Proof.
  intros Hx. split; [done|split; [|apply in_bounds_nil]].
  intros a Ha. by destruct (Hx a).
Qed.

Lemma safe_throw {A} p (Q : A → Prop) : safe (throw p) Q s.
Proof. by apply safe_stop. Qed.

Lemma safe_block {A} (Q : A → Prop) : safe block Q s.
Proof. by apply safe_stop. Qed.

Lemma safe_return {A} (Q : A → Prop) : safe return_ Q s.
Proof. by apply safe_stop. Qed.

Lemma safe_assertf b msg : safe (assertf b msg) (λ _, True) s.
Proof. destruct b; [by apply safe_unit|by apply safe_throw]. Qed.

Lemma safe_load i : is_u16 i → safe (load i) is_u16 s.
Proof.
  intros Hi%is_u16_spec. unfold safe, load, in_bounds.
  destruct (mem (self s) !! Z.to_nat i) as [w|] eqn:E; cbn [res post touched].
  - destruct (wf_mem_lookup _ Hwf _ _ E). split; [done|split].
    + by intros ? [= <-].
    + intros j ->%list_elem_of_singleton. split; [done|]. left. lia.
  - split; [done|split; [done|]].
    intros j ->%list_elem_of_singleton. split; [done|]. right.
    by rewrite (wf_mem_length _ Hwf).
Qed.

Lemma safe_store i w : is_u16 i → is_u16 w → safe (store i w) (λ _, True) s.
Proof.
  intros Hi%is_u16_spec Hw. unfold safe, store, in_bounds.
  pose proof (wf_mem_length _ Hwf) as Hlen.
  destruct (decide _) as [Hlt|Hge]; cbn [res post touched].
  - split; [by apply wf_with_mem|split; [done|]].
    intros j ->%list_elem_of_singleton. split; [done|]. left. lia.
  - split; [done|split; [done|]].
    intros j ->%list_elem_of_singleton. split; [done|]. right. by rewrite Hlen.
Qed.

Lemma wf_bump arg : wf_frame (bump arg s).
Proof. exact Hwf. Qed.

Lemma in_bounds_operand {A} (x : flow A) s' arg w :
  mem (self s) !! Z.to_nat (operand arg s) = Some w →
  in_bounds (Ran x s' [operand arg s]).
Proof.
  intros E j ->%list_elem_of_singleton.
  destruct (wf_mem_lookup _ Hwf _ _ E). pose proof (u16_range (ip s + arg)).
  unfold operand in *. split; [done|]. left. lia.
Qed.

Lemma in_bounds_refused {A} s' arg :
  in_bounds (A:=A) (Ran (Panicked (index_panic (operand arg s)
                                 (Z.of_nat (length (mem (self s)))))) s'
                 [operand arg s]).
Proof.
  intros j ->%list_elem_of_singleton. split; [apply u16_range|]. right. cbn.
  by rewrite (wf_mem_length _ Hwf).
Qed.

Lemma safe_get arg : 0 < arg → safe (get arg) is_u16 s.
Proof.
  intros Harg. unfold safe. rewrite (get_eq _ _ Harg). cbv zeta.
  destruct (mem (self s) !! _) as [av|] eqn:E.
  - destruct (wf_mem_lookup _ Hwf _ _ E) as [Hav _].
    destruct (av <=? vmax); [|destruct (av <? vreg + nregs);
      [destruct (reg (self s) !! _) as [w|] eqn:Er|]];
      cbn [res post touched]; (split; [by apply wf_bump|split;
        [|by eapply in_bounds_operand]]); try done.
    + by intros ? [= <-].
    + intros ? [= <-]. by eapply wf_reg_lookup.
  - cbn [res post touched]. split; [by apply wf_bump|split; [done|]].
    by apply in_bounds_refused.
Qed.

Lemma safe_set arg val : 0 < arg → is_u16 val → safe (set arg val) (λ _, True) s.
Proof.
  intros Harg Hval. unfold safe. rewrite (set_eq _ _ _ Harg). cbv zeta.
  destruct (mem (self s) !! _) as [av|] eqn:E.
  - destruct ((vreg <=? av) && (av <? vreg + nregs));
      [destruct (decide _)|]; cbn [res post touched];
      (split; [|split; [done|by eapply in_bounds_operand]]);
      try by apply wf_bump.
    by apply (wf_with_reg (bump arg s)).
  - cbn [res post touched]. split; [by apply wf_bump|split; [done|]].
    by apply in_bounds_refused.
Qed.

Lemma safe_pop : safe pop is_u16 s.
Proof.
  unfold safe. rewrite pop_eq.
  destruct (last (stack (self s))) as [v|] eqn:E; cbn [res post touched].
  - split; [by apply wf_take|split; [|apply in_bounds_nil]].
    intros ? [= <-]. by eapply wf_stack_last.
  - split; [done|split; [done|apply in_bounds_nil]].
Qed.

End SafePrimitives.

Lemma safe_recv_in s : wf_frame s → safe recv_in is_u16 s.
Proof.
  intros Hwf. unfold recv_in. apply safe_bind_reads.
  destruct (quit (self s)); [by apply safe_return|].
  apply safe_bind_reads. destruct (in_ (self s)) as [|v rest] eqn:E.
  - by apply safe_block.
  - destruct (wf_with_in _ Hwf _ _ E). apply safe_bind_update. by apply safe_unit.
Qed.

(** ** Every turn of the loop is safe *)

Create HintDb safe.
#[local] Hint Resolve wf_with_sz wf_with_ip wf_push wf_with_out wf_with_quit
  is_u16_cond is_u16_u16 is_u16_vmod is_u16_land is_u16_lor is_u16_not : safe.

(** One step of the symbolic run of a computation under [safe]. *)
Ltac safe_step :=
  lazymatch goal with
  | |- safe (bind (reads _) _) _ _ => apply safe_bind_reads
  | |- safe (bind (update _) _) _ _ => apply safe_bind_update
  | |- safe (bind (get _) _) _ _ =>
      eapply safe_seq; [apply safe_get; [auto with safe|lia]|]; intros ? ? ? ?
  | |- safe (bind (load _) _) _ _ =>
      eapply safe_seq; [apply safe_load; [auto with safe|]|intros ? ? ? ?]
  | |- safe (bind recv_in _) _ _ =>
      eapply safe_seq; [apply safe_recv_in; auto with safe|]; intros ? ? ? ?
  | |- safe (bind pop _) _ _ =>
      eapply safe_seq; [apply safe_pop; auto with safe|]; intros ? ? ? ?
  | |- safe (bind (assertf _ _) _) _ _ =>
      eapply safe_seq; [apply safe_assertf; auto with safe|]; intros ? ? _ ?
  | |- safe (set _ _) _ _ => apply safe_set; [auto with safe|lia|auto with safe]
  | |- safe (store _ _) _ _ => apply safe_store; [auto with safe| |auto with safe]
  | |- safe (update _) _ _ => apply safe_update; [auto 6 with safe|done]
  | |- safe (unit_ _) _ _ => apply safe_unit; [auto with safe|done]
  | |- safe (throw _) _ _ => apply safe_throw; auto with safe
  | |- safe block _ _ => apply safe_block; auto with safe
  | |- safe return_ _ _ => apply safe_return; auto with safe
  | |- safe (if ?b then _ else _) _ _ => destruct b eqn:?
  end.

(** The case analysis on the opcode the switch of [exec] makes. *)
Ltac switch_on op :=
  unfold exec;
  let p := fresh "p" in
  destruct op as [|p|p]; cbv beta iota;
  repeat match goal with
         | |- context [match ?q with xI _ => _ | xO _ => _ | xH => _ end] =>
             is_var q; destruct q; cbv beta iota
         end.

Section SafeExec.

Lemma safe_exec op s : wf_frame s → safe (exec op) (λ _, True) s.
Proof.
  intros Hwf. switch_on op.
  all: unfold close_quit, push, send_out.
  all: repeat safe_step; auto with safe.
  apply is_u16_mod; [done..|]. by apply Z.eqb_neq.
Qed.

Lemma safe_turn s : wf_frame s → safe turn (λ _, True) s.
Proof.
  intros Hwf. unfold turn. apply safe_bind_reads.
  destruct (quit (self s)); [by apply safe_return|].
  apply safe_bind_reads.
  eapply safe_seq; [apply safe_load; [done|]|].
  { by apply andb_True in Hwf as [_ ?]. }
  intros op s1 _ Hwf1. apply safe_bind_update.
  eapply safe_seq; [by apply safe_exec|].
  intros _ s2 _ Hwf2. unfold advance. repeat safe_step.
Qed.

End SafeExec.

(** ** The shape of a turn *)

Section Turn.

Lemma load_some i w s :
  mem (self s) !! Z.to_nat i = Some w → load i s = Ran (Val w) s [i].
Proof. unfold load. by intros ->. Qed.

Lemma load_post i s : post (load i s) = s.
Proof. unfold load. by case_match. Qed.

Lemma advance_eq s : advance s = Ran (Val tt) (with_ip (u16 (ip s + sz s)) s) [].
Proof. reflexivity. Qed.

Lemma turn_quit s : quit (self s) = true → turn s = Ran Returned s [].
Proof. intros Hq. unfold turn. rewrite bind_reads, Hq. reflexivity. Qed.

Lemma turn_eq s op :
  quit (self s) = false → mem (self s) !! Z.to_nat (ip s) = Some op →
  turn s = after [ip s] (bind (exec op) (λ _, advance) (with_sz 1 s)).
Proof.
  intros Hq Hop. unfold turn. rewrite bind_reads, Hq, bind_reads.
  rewrite (bind_val _ _ _ _ _ _ (load_some _ _ _ Hop)). by rewrite bind_update.
Qed.

(** A turn that falls through has executed its opcode and advanced. *)
Lemma turn_val s op :
  quit (self s) = false → mem (self s) !! Z.to_nat (ip s) = Some op →
  res (turn s) = Val tt →
  let e := exec op (with_sz 1 s) in
  res e = Val tt ∧ post (turn s) = with_ip (u16 (ip (post e) + sz (post e))) (post e).
Proof.
  intros Hq Hop. rewrite (turn_eq _ _ Hq Hop), res_after, post_after.
  intros (a & Ha & _ & -> & _)%bind_res_val. destruct a. done.
Qed.

Lemma get_post arg s : 0 < arg → post (get arg s) = bump arg s.
Proof.
  intros Harg. rewrite (get_eq _ _ Harg). cbv zeta.
  by repeat case_match.
Qed.

Lemma get_res_indep arg s1 s2 :
  self s1 = self s2 → ip s1 = ip s2 → res (get arg s1) = res (get arg s2).
Proof.
  intros Hs Hi. destruct (decide (0 < arg)) as [Harg|Harg].
  - rewrite !(get_eq _ _ Harg). unfold operand. cbv zeta. rewrite Hs, Hi.
    by repeat case_match.
  - unfold get, assertf. replace (0 <? arg) with false; [done|].
    symmetry. apply Z.ltb_ge. lia.
Qed.

Lemma set_val arg val s :
  0 < arg → res (set arg val s) = Val tt →
  ∃ av, mem (self s) !! Z.to_nat (operand arg s) = Some av
        ∧ vreg ≤ av < vreg + nregs
        ∧ post (set arg val s) =
            on_self (with_reg (<[Z.to_nat (u16 (av - vreg)) := val]> (reg (self s))))
                    (bump arg s).
Proof.
  intros Harg. rewrite (set_eq _ _ _ Harg). cbv zeta.
  destruct (mem (self s) !! _) as [av|]; [|done].
  destruct (_ && _) eqn:E; [|done]. destruct (decide _); [|done].
  intros _. exists av. apply andb_true_iff in E as [?%Z.leb_le ?%Z.ltb_lt].
  done.
Qed.

End Turn.

(** Inversion of a computation known to fall through: the hypothesis [H]
    is peeled bind by bind, and the frame it leaves is rewritten in the
    goal. *)
Ltac peel H :=
  repeat lazymatch type of H with
  | res (bind (get ?n) _ ?s) = Val _ =>
      let b := fresh "b" in let Hb := fresh "Hb" in let Hp := fresh "Hp" in
      apply bind_res_val in H as (b & Hb & H & Hp & _);
      rewrite Hp; clear Hp; rewrite (get_post n s) in * by lia
  | res (bind (load ?i) _ ?s) = Val _ =>
      let w := fresh "w" in let Hw := fresh "Hw" in let Hp := fresh "Hp" in
      apply bind_res_val in H as (w & Hw & H & Hp & _);
      rewrite Hp; clear Hp; rewrite (load_post i s) in *
  | res ((if ?c then _ else _) _) = Val _ => destruct c eqn:?; [try done|try done]
  end.

Section Frame.

Lemma set_frame arg val s :
  0 < arg → res (set arg val s) = Val tt →
  ∃ a, mem (self s) !! Z.to_nat (u16 (ip s + arg)) = Some a
       ∧ vreg ≤ a < vreg + nregs
       ∧ same_but_reg (Z.to_nat (u16 (a - vreg))) (self s)
                      (self (post (set arg val s))).
Proof.
  intros Harg Hres. destruct (set_val _ _ _ Harg Hres) as (a & Ha & Hr & ->).
  exists a. split; [done|split; [done|]]. cbn.
  repeat split; try done.
  - apply length_insert.
  - intros j Hj. by apply list_lookup_insert_ne.
Qed.

(** C10. An instruction among set (1), eq (4), gt (5), add (9), mult (10),
    mod (11), and (12), or (13), not (14) and rmem (15) that completes
    without a fault changes nothing of the machine but the register its
    first operand designates: memory, the stack, the channels and the other
    registers are as before (the instruction pointer, local to [run], is
    the only other thing that moves). *)
Theorem register_opcodes_frame s op :
  quit (self s) = false →
  mem (self s) !! Z.to_nat (ip s) = Some op →
  op ∈ [1; 4; 5; 9; 10; 11; 12; 13; 14; 15] →
  res (turn s) = Val tt →
  ∃ a, mem (self s) !! Z.to_nat (u16 (ip s + 1)) = Some a
       ∧ vreg ≤ a < vreg + nregs
       ∧ same_but_reg (Z.to_nat (u16 (a - vreg))) (self s) (self (post (turn s))).
Proof.
  intros Hq Hop Hin Hres.
  destruct (turn_val _ _ Hq Hop Hres) as [He ->]. cbn [self with_ip].
  clear Hres Hop.
  repeat (apply elem_of_cons in Hin as [->|Hin]); [..|by apply elem_of_nil in Hin].
  all: unfold exec in *; peel He.
  all: by apply set_frame in He.
Qed.

End Frame.

Section Jumps.

Lemma get_val_u16 arg s a : wf_frame s → 0 < arg → res (get arg s) = Val a → is_u16 a.
Proof. intros Hwf Harg Ha. by destruct (safe_get s Hwf arg Harg) as (_ & HQ & _); apply HQ. Qed.

Lemma u16_target a : is_u16 a → u16 (a + 0) = a.
Proof. intros Ha%is_u16_spec. rewrite Z.add_0_r. by apply u16_id. Qed.

(** C6, amended. jmp (6) and call (17) always, jt (7) when its first
    operand is non-zero and jf (8) when it is zero, leave the instruction
    pointer on the resolved target, without the fall-through advance.
    When the condition of jt or jf does not hold the instruction falls
    through, and the pointer advances by its size, 3 words. *)
Theorem jumps_set_ip s op :
  wf_frame s → quit (self s) = false →
  mem (self s) !! Z.to_nat (ip s) = Some op →
  res (turn s) = Val tt →
  (op = 6 ∨ op = 17 → res (get 1 s) = Val (ip (post (turn s))))
  ∧ (op = 7 → ∃ a b, res (get 1 s) = Val a ∧ res (get 2 s) = Val b
                     ∧ ip (post (turn s)) = if a =? 0 then u16 (ip s + 3) else b)
  ∧ (op = 8 → ∃ a b, res (get 1 s) = Val a ∧ res (get 2 s) = Val b
                     ∧ ip (post (turn s)) = if a =? 0 then b else u16 (ip s + 3)).
Proof.
  intros Hwf Hq Hop Hres.
  destruct (turn_val _ _ Hq Hop Hres) as [He ->]. cbn [ip with_ip].
  clear Hres Hop.
  split; [intros [->| ->]|split; intros ->]; unfold exec in *; peel He.
  all: unfold push; rewrite ?bind_reads, ?bind_update; clear He.
  all: cbn [update unit_ post ip sz with_ip with_sz bump on_self].
  - rewrite (get_res_indep 1 s (with_sz 1 s)) by done. rewrite Hb.
    by rewrite u16_target by (by eapply (get_val_u16 1 (with_sz 1 s))).
  - rewrite (get_res_indep 1 s (with_sz 1 s)) by done. rewrite Hb.
    by rewrite u16_target by (by eapply (get_val_u16 1 (with_sz 1 s))).
  - exists b0, b. rewrite (get_res_indep 1 s (bump 2 (with_sz 1 s))) by done.
    rewrite (get_res_indep 2 s (with_sz 1 s)) by done.
    split; [done|split; [done|]]. destruct (b0 =? 0); [done|].
    by rewrite u16_target by (by eapply (get_val_u16 2 (with_sz 1 s))).
  - exists b0, b. rewrite (get_res_indep 1 s (bump 2 (with_sz 1 s))) by done.
    rewrite (get_res_indep 2 s (with_sz 1 s)) by done.
    split; [done|split; [done|]]. by destruct (b0 =? 0).
  - exists b0, b. rewrite (get_res_indep 1 s (bump 2 (with_sz 1 s))) by done.
    rewrite (get_res_indep 2 s (with_sz 1 s)) by done.
    split; [done|split; [done|]]. destruct (b0 =? 0); [|done].
    by rewrite u16_target by (by eapply (get_val_u16 2 (with_sz 1 s))).
  - exists b0, b. rewrite (get_res_indep 1 s (bump 2 (with_sz 1 s))) by done.
    rewrite (get_res_indep 2 s (with_sz 1 s)) by done.
    split; [done|split; [done|]]. by destruct (b0 =? 0).
Qed.

End Jumps.

(** ** Memory accesses of a run *)

Section Accesses.

Lemma wf_start v : wf v → wf_frame (Frame v 0 0).
Proof. intros Hv. apply wf_frame_spec. split; [done|cbn [ip]; lia]. Qed.

Lemma reachable_wf v s : wf v → reachable v s → wf_frame s.
Proof.
  intros Hv. induction 1 as [|s _ IH _].
  - by apply wf_start.
  - by destruct (safe_turn s IH) as (? & _).
Qed.

(** C8, amended. In every reachable state, every memory index a turn of
    the loop asks for (the opcode fetch, the operand reads, the read of
    rmem and the write of wmem) is a [uint16], and either lies inside the
    32768-word array or is refused: the access is not made, and the turn
    ends in the index-out-of-range panic of the bounds check on that very
    index. *)
Theorem accesses_checked v s :
  wf v → reachable v s →
  ∀ i, i ∈ touched (turn s) →
       0 ≤ i < 65536
       ∧ (i < msize ∨ res (turn s) = Panicked (index_panic i msize)).
Proof.
  intros Hv Hs. pose proof (reachable_wf _ _ Hv Hs) as Hwf.
  by destruct (safe_turn s Hwf) as (_ & _ & Hb).
Qed.

End Accesses.

(** ** Runs *)

Section Runs.

Lemma loop_more fuel n s r : loop fuel s = Some r → loop (fuel + n) s = Some r.
Proof.
  revert s r. induction fuel as [|fuel IH]; intros s r; [done|].
  cbn [loop Nat.add]. destruct (turn s) as [[[]|p| |] s' t]; try done.
  destruct (loop fuel s') as [r'|] eqn:E; [|done].
  by rewrite (IH _ _ E).
Qed.

Lemma loop_deterministic fuel1 fuel2 s r1 r2 :
  loop fuel1 s = Some r1 → loop fuel2 s = Some r2 → r1 = r2.
Proof.
  intros H1%(loop_more _ fuel2) H2%(loop_more _ fuel1).
  rewrite Nat.add_comm in H2. congruence.
Qed.

Lemma run_more fuel n v o : run fuel v = Some o → run (fuel + n) v = Some o.
Proof.
  unfold run. destruct (loop fuel _) as [r|] eqn:E; [|done].
  by rewrite (loop_more _ n _ _ E).
Qed.

Lemma start_more fuel n v x : start fuel v = Some x → start (fuel + n) v = Some x.
Proof.
  unfold start. destruct (done v); [done|].
  destruct (run fuel _) as [o|] eqn:E; [|done].
  by rewrite (run_more _ n _ _ E).
Qed.

(** Two runs of the engine alone that come to an end, however many turns
    each is allowed, end the same way. *)
Lemma run_fuel_independent v fuel1 fuel2 o1 o2 :
  run fuel1 v = Some o1 → run fuel2 v = Some o2 → o1 = o2.
Proof.
  intros H1%(run_more _ fuel2) H2%(run_more _ fuel1).
  rewrite Nat.add_comm in H2. congruence.
Qed.

End Runs.

(** ** The loader *)

Section Loader.

Lemma pairs_ind (P : list Z → Prop) :
  P [] → (∀ b, P [b]) → (∀ b0 b1 rest, P rest → P (b0 :: b1 :: rest)) →
  ∀ bs, P bs.
Proof.
  intros H0 H1 H2 bs. cut (P bs ∧ ∀ b, P (b :: bs)); [tauto|].
  induction bs as [|b bs [IH1 IH2]]; [by split|]. split; [apply IH2|].
  intros b'. by apply H2.
Qed.

Lemma fill_fresh_eq bs (e : error) nr v :
  fill bs e nr v =
    if decide (Z.to_nat nr < length (mem v))%nat then
      match bs with
      | b0 :: b1 :: rest =>
          fill rest e (nr + 1)
               (with_mem (<[Z.to_nat nr := Z.lor b0 (Z.shiftl b1 8)]> (mem v)) v)
      | [_] => Failed (match e with EOF => ErrUnexpectedEOF | _ => e end)
      | [] => match e with EOF => Loaded v | _ => Failed e end
      end
    else LoadPanic (index_panic nr (Z.of_nat (length (mem v)))).
Proof. by destruct bs. Qed.

(** The memory while the loader runs: the words read so far, zero after.
    A source of fewer than [msize] words is read to its end. *)
Lemma fill_short bs e : ∀ pre v,
  mem v = pre ++ replicate (Z.to_nat msize - length pre) 0 →
  (length pre + length (decode bs) < Z.to_nat msize)%nat →
  fill bs e (Z.of_nat (length pre)) v
  = if Nat.even (length bs) then
      match e with
      | EOF => Loaded (with_mem (image (pre ++ decode bs)) v)
      | _ => Failed e
      end
    else Failed (match e with EOF => ErrUnexpectedEOF | _ => e end).
Proof.
  induction bs as [|b|b0 b1 rest IH] using pairs_ind; intros pre v Hm Hlen.
  - rewrite fill_fresh_eq. cbn [decode length Nat.even] in *.
    rewrite decide_True by (rewrite Hm, length_app, length_replicate; lia).
    rewrite app_nil_r. unfold image. rewrite <- Hm. by destruct v.
  - rewrite fill_fresh_eq. cbn [decode length Nat.even] in *.
    by rewrite decide_True by (rewrite Hm, length_app, length_replicate; lia).
  - rewrite fill_fresh_eq. cbn [decode length Nat.even] in *.
    rewrite decide_True by (rewrite Hm, length_app, length_replicate; lia).
    set (w := Z.lor b0 (Z.shiftl b1 8)).
    replace (Z.of_nat (length pre) + 1) with (Z.of_nat (length (pre ++ [w])))
      by (rewrite length_app; cbn; lia).
    rewrite IH.
    + cbn. by rewrite <- app_assoc.
    + cbn [mem with_mem]. rewrite Hm, Nat2Z.id, length_app. cbn [length].
      rewrite insert_app_r_alt by lia. rewrite Nat.sub_diag.
      destruct (Z.to_nat msize - length pre)%nat as [|m] eqn:Em; [lia|].
      cbn. rewrite <- app_assoc. cbn. do 3 f_equal. lia.
    + rewrite length_app. cbn. lia.
Qed.

(** A source of [msize] words or more: the index expression of the next
    turn is out of range before the end of the source can be seen. *)
Lemma fill_overflow bs e : ∀ nr v,
  length (mem v) = Z.to_nat msize → 0 ≤ nr ≤ msize →
  (2 * (Z.to_nat msize - Z.to_nat nr) ≤ length bs)%nat →
  fill bs e nr v = LoadPanic (index_panic msize msize).
Proof.
  induction bs as [|b|b0 b1 rest IH] using pairs_ind; intros nr v Hm Hnr Hlen.
  - rewrite fill_fresh_eq. cbn [length] in Hlen.
    rewrite decide_False by lia. rewrite Hm.
    replace nr with msize by lia. by rewrite Z2Nat.id by lia.
  - rewrite fill_fresh_eq. cbn [length] in Hlen.
    rewrite decide_False by lia. rewrite Hm.
    replace nr with msize by lia. by rewrite Z2Nat.id by lia.
  - rewrite fill_fresh_eq. cbn [length] in Hlen.
    destruct (decide _) as [Hlt|Hge].
    + apply IH; cbn [mem with_mem]; [by rewrite length_insert|lia|lia].
    + rewrite Hm. replace nr with msize by lia. by rewrite Z2Nat.id by lia.
Qed.

Lemma newVM_short bs e :
  (length (decode bs) < Z.to_nat msize)%nat →
  newVM (Reader bs e)
  = if Nat.even (length bs) then
      match e with
      | EOF => Loaded (fresh (image (decode bs)))
      | _ => Failed e
      end
    else Failed (match e with EOF => ErrUnexpectedEOF | _ => e end).
Proof.
  intros Hlen. unfold newVM. cbn [pending ending].
  rewrite (fill_short bs e []); [done| |done].
  cbn [mem app length]. by rewrite Nat.sub_0_r.
Qed.

(** A program of fewer than [msize] words is loaded as it is, zero after it. *)
Lemma newVM_image ws :
  Nat.even (length (bytes_of ws)) = true → decode (bytes_of ws) = ws →
  (length ws < Z.to_nat msize)%nat →
  newVM (Reader (bytes_of ws) EOF) = Loaded (fresh (image ws)).
Proof.
  intros Hev Hws Hlen. rewrite newVM_short by (by rewrite Hws).
  by rewrite Hev, Hws.
Qed.

(** C5, on an image that fills the memory: 32768 words, here all zero.
    The loader panics on [&vm.mem[32768]] instead of seeing the end of the
    source, and no machine is returned. *)
Theorem newVM_full_image_panics :
  newVM (Reader (replicate (Z.to_nat 65536) 0) EOF)
  = LoadPanic (index_panic 32768 32768).
Proof.
  unfold newVM. cbn [pending ending]. apply fill_overflow.
  - cbn [mem]. by rewrite length_replicate.
  - rewrite msize_eq. lia.
  - rewrite length_replicate, msize_eq. lia.
Qed.

End Loader.

(** ** The scenarios *)

Section Scenarios.

(** C7. The program [9, 32768, 32769, 4, 19, 32768, 0], loaded on a
    machine whose registers are all zero, sends exactly one byte, 4, on
    the outbound channel, and the run returns without an error, the
    channel closed; the controller's [wait] receives nil. *)
Theorem scenario_add_out n :
  let v := fresh (image [9; 32768; 32769; 4; 19; 32768; 0]) in
  newVM (Reader (bytes_of [9; 32768; 32769; 4; 19; 32768; 0]) EOF) = Loaded v
  ∧ (∃ v', run (4 + n) v = Some (Exited None v') ∧ out v' = Chan [4] true)
  ∧ (∃ v' v'', start (4 + n) v = Some (inr (Exited None v'))
               ∧ wait v' = inr (Some (None, v''))).
Proof.
  intros v. split; [apply newVM_image; [done|done|rewrite msize_eq; cbn [length]; lia]|].
  split.
  - assert (match run 4 v with
            | Some (Exited None v') => out v' = Chan [4] true
            | _ => False
            end) as H by (by vm_compute).
    destruct (run 4 v) as [[[e|] v'| |]|] eqn:E; try done.
    exists v'. split; [|done]. by apply run_more.
  - assert (match start 4 v with
            | Some (inr (Exited None v')) =>
                match wait v' with inr (Some (None, _)) => True | _ => False end
            | _ => False
            end) as H by (by vm_compute).
    destruct (start 4 v) as [[|[[e|] v'| |]]|] eqn:E; try done.
    destruct (wait v') as [|[[[e|] v'']|]] eqn:E'; try done.
    exists v', v''. split; [|done]. by apply start_more.
Qed.

(** [ret] with an empty stack, on every machine: the turn panics in
    [pop], with a string. *)
Lemma ret_on_empty_stack s :
  quit (self s) = false → mem (self s) !! Z.to_nat (ip s) = Some 18 →
  stack (self s) = [] →
  turn s = Ran (Panicked (PString "pop with empty stack")) (with_sz 1 s) [ip s].
Proof.
  intros Hq Hop Hk. rewrite (turn_eq _ _ Hq Hop). unfold exec.
  assert (pop (with_sz 1 s)
          = Ran (Panicked (PString "pop with empty stack")) (with_sz 1 s) [])
    as Hpop by (by rewrite pop_eq; cbn [self with_sz]; rewrite Hk).
  by rewrite (bind_panicked _ _ _ _ _ _ (bind_panicked _ _ _ _ _ _ Hpop)).
Qed.

(** C1. [ret] with an empty stack: [pop] panics, the deferred handler
    turns the panic into the error the run returns, and that error is what
    the controller's [wait] receives. *)
Theorem ret_empty_stack_is_an_error n :
  let v := fresh (image [18]) in
  newVM (Reader (bytes_of [18]) EOF) = Loaded v
  ∧ (∃ v', run (1 + n) v = Some (Exited (Some "pop with empty stack") v')
           ∧ out v' = Chan [] true)
  ∧ (∃ v' v'', start (1 + n) v = Some (inr (Exited (Some "pop with empty stack") v'))
               ∧ wait v' = inr (Some (Some "pop with empty stack", v''))).
Proof.
  intros v. split; [apply newVM_image; [done|done|rewrite msize_eq; cbn [length]; lia]|].
  split.
  - assert (match run 1 v with
            | Some (Exited (Some msg) v') =>
                msg = "pop with empty stack" ∧ out v' = Chan [] true
            | _ => False
            end) as H by (by vm_compute).
    destruct (run 1 v) as [[[e|] v'| |]|] eqn:E; try done.
    destruct H as [-> ?]. exists v'. split; [|done]. by apply run_more.
  - assert (match start 1 v with
            | Some (inr (Exited (Some msg) v')) =>
                msg = "pop with empty stack"
                ∧ match wait v' with
                  | inr (Some (Some msg', _)) => msg' = "pop with empty stack"
                  | _ => False
                  end
            | _ => False
            end) as H by (by vm_compute).
    destruct (start 1 v) as [[|[[e|] v'| |]]|] eqn:E; try done.
    destruct H as [-> H].
    destruct (wait v') as [|[[[e|] v'']|]] eqn:E'; try done. subst e.
    exists v', v''. split; [|done]. by apply start_more.
Qed.

(** [mod] with a zero divisor, on every machine: the turn ends in the
    run-time panic of the division, which the deferred handler cannot
    take. *)
Lemma mod_by_zero s b :
  quit (self s) = false → mem (self s) !! Z.to_nat (ip s) = Some 11 →
  res (get 2 s) = Val b → res (get 3 s) = Val 0 →
  res (turn s) = Panicked divide_panic
  ∧ ∀ v, deferred (Panicked divide_panic) v = Crashed assertion_panic v.
Proof.
  intros Hq Hop Hb Hc. split; [|done].
  rewrite (turn_eq _ _ Hq Hop), res_after. apply bind_res_panicked.
  unfold exec.
  rewrite (bind_res_step _ _ _ b) by (by rewrite (get_res_indep 2 _ s)).
  rewrite get_post by lia.
  by rewrite (bind_res_step _ _ _ 0) by (by rewrite (get_res_indep 3 _ s)).
Qed.

(** C2. [mod] with a zero divisor: the run-time panic is not a string,
    so the type assertion of the deferred handler panics in its turn;
    nothing is returned, the outbound channel stays open and nothing is
    published for [wait]. *)
Theorem mod_by_zero_crashes n :
  let v := fresh (image [11; 32768; 1; 0]) in
  newVM (Reader (bytes_of [11; 32768; 1; 0]) EOF) = Loaded v
  ∧ (∃ v', run (1 + n) v = Some (Crashed assertion_panic v')
           ∧ closed (out v') = false)
  ∧ (∃ v', start (1 + n) v = Some (inr (Crashed assertion_panic v'))
           ∧ wait v' = inr None).
Proof.
  intros v. split; [apply newVM_image; [done|done|rewrite msize_eq; cbn [length]; lia]|].
  split.
  - assert (match run 1 v with
            | Some (Crashed p v') => p = assertion_panic ∧ closed (out v') = false
            | _ => False
            end) as H by (by vm_compute).
    destruct (run 1 v) as [[| p v'|]|] eqn:E; try done.
    destruct H as [-> ?]. exists v'. split; [|done]. by apply run_more.
  - assert (match start 1 v with
            | Some (inr (Crashed p v')) => p = assertion_panic ∧ wait v' = inr None
            | _ => False
            end) as H by (by vm_compute).
    destruct (start 1 v) as [[|[| p v'|]]|] eqn:E; try done.
    destruct H as [-> ?]. exists v'. split; [|done]. by apply start_more.
Qed.

End Scenarios.

(** ** Operand resolution *)

Section Resolve.

(** C4. The three cases of [get] on the raw word [av] read at the operand
    address: a literal is returned as it is, a register reference gives the
    contents of that register, and anything from 32776 on is the
    "bad value" panic, which names the word and the address. *)
Theorem get_trichotomy arg s av :
  0 < arg →
  mem (self s) !! Z.to_nat (u16 (ip s + arg)) = Some av →
  length (reg (self s)) = Z.to_nat nregs →
  (0 ≤ av ≤ 32767 → res (get arg s) = Val av)
  ∧ (32768 ≤ av ≤ 32775 →
     ∃ w, reg (self s) !! Z.to_nat (av - 32768) = Some w
          ∧ res (get arg s) = Val w)
  ∧ (32776 ≤ av →
     res (get arg s)
     = Panicked (PString ("bad value " +:+ pretty av +:+ " at "
                          +:+ pretty (u16 (ip s + arg))))).
Proof.
  intros Harg Hav Hlen. rewrite (get_eq _ _ Harg). unfold operand. cbv zeta.
  rewrite Hav, vmax_eq, vreg_eq, nregs_eq. change (32768 + 8) with 32776.
  split; [|split].
  - intros ?. by rewrite (proj2 (Z.leb_le av 32767)) by lia.
  - intros ?. rewrite (proj2 (Z.leb_gt av 32767)) by lia.
    rewrite (proj2 (Z.ltb_lt av 32776)) by lia.
    rewrite u16_id by lia.
    destruct (lookup_lt_is_Some_2 (reg (self s)) (Z.to_nat (av - 32768)))
      as [w Hw]; [rewrite Hlen, nregs_eq; lia|].
    exists w. by rewrite Hw.
  - intros ?. rewrite (proj2 (Z.leb_gt av 32767)) by lia.
    by rewrite (proj2 (Z.ltb_ge av 32776)) by lia.
Qed.

End Resolve.

(** ** Cancellation *)

Section Cancellation.

Lemma steady_bind {A B} (c : M A) (k : A → M B) :
  steady c → (∀ a, steady (k a)) → steady (bind c k).
Proof.
  intros Hc Hk s Hq. specialize (Hc s Hq). unfold bind.
  destruct (c s) as [[a|p| |] s' t]; cbn [post] in *; try done.
  rewrite post_after. by apply Hk.
Qed.

Lemma steady_still {A} (x : frame → flow A) t : steady (λ s, Ran (x s) s t).
Proof. by intros s Hq. Qed.

Lemma steady_update f :
  (∀ s, quit (self s) = true → quit (self (f s)) = true) → steady (update f).
Proof. intros Hf s Hq. by apply Hf. Qed.

Lemma steady_if {A} (b : bool) (c1 c2 : M A) :
  steady c1 → steady c2 → steady (if b then c1 else c2).
Proof. by destruct b. Qed.

Lemma steady_load i : steady (load i).
Proof. intros s Hq. by rewrite load_post. Qed.

Lemma steady_store i w : steady (store i w).
Proof. intros s Hq. unfold store. by case_decide. Qed.

Lemma steady_get arg : steady (get arg).
Proof.
  intros s Hq. destruct (decide (0 < arg)) as [Harg|Harg].
  - by rewrite get_post.
  - unfold get, assertf. replace (0 <? arg) with false; [done|].
    symmetry. apply Z.ltb_ge. lia.
Qed.

Lemma steady_set arg val : steady (set arg val).
Proof.
  intros s Hq. destruct (decide (0 < arg)) as [Harg|Harg].
  - rewrite (set_eq _ _ _ Harg). cbv zeta. by repeat case_match.
  - unfold set, assertf. replace (0 <? arg) with false; [done|].
    symmetry. apply Z.ltb_ge. lia.
Qed.

Lemma steady_pop : steady pop.
Proof. intros s Hq. rewrite pop_eq. by case_match. Qed.

Lemma steady_exec op : steady (exec op).
Proof.
  switch_on op.
  all: unfold close_quit, push, send_out, recv_in, throw, unit_, reads,
         return_, block.
  all: repeat first
         [ apply steady_get | apply steady_set | apply steady_pop
         | apply steady_load | apply steady_store
         | apply steady_still | apply steady_update; by intros
         | apply steady_bind; [|intros ?] | apply steady_if
         | match goal with |- steady (match ?l with [] => _ | _ :: _ => _ end) =>
             destruct l end ].
Qed.

(** C3, amended. A request to halt on a signal not yet raised raises it,
    without a fault and without touching anything else, and once raised
    the signal stays raised: no opcode lowers it, and the next turn of the
    loop returns. A second request is not without effect: closing the
    closed channel panics. *)
Theorem halt_raises_once v :
  (quit v = false → halt v = inr (with_quit true v))
  ∧ (quit v = true → halt v = inl close_panic)
  ∧ (quit v = true →
     ∀ op i n, quit (self (post (exec op (Frame v i n)))) = true)
  ∧ (quit v = true → ∀ i n, turn (Frame v i n) = Ran Returned (Frame v i n) []).
Proof.
  unfold halt. repeat split.
  - by intros ->.
  - by intros ->.
  - intros Hq op i n. by apply steady_exec.
  - intros Hq i n. by apply turn_quit.
Qed.

End Cancellation.

(** ** The engine next to the producer *)

Section Producer.

Lemma blind_bind {A B} (c : M A) (k : A → M B) :
  queue_blind c → (∀ a, queue_blind (k a)) → queue_blind (bind c k).
Proof.
  intros Hc Hk s more. unfold bind at 1 3 4 5. specialize (Hc s more).
  destruct (c s) as [[a|p| |] s' t] eqn:E; cbn [res post touched] in *.
  - rewrite res_after, post_after, touched_after. intros Hb.
    unfold bind. rewrite Hc by done. specialize (Hk a s' more Hb).
    rewrite Hk. reflexivity.
  - intros _. unfold bind. by rewrite Hc.
  - intros _. unfold bind. by rewrite Hc.
  - done.
Qed.

Lemma blind_still {A} (x : frame → flow A) (t : frame → list Z) :
  (∀ s more, x (on_self (feed more) s) = x s) →
  (∀ s more, t (on_self (feed more) s) = t s) →
  queue_blind (λ s, Ran (x s) s (t s)).
Proof. intros Hx Ht s more _. cbn. by rewrite Hx, Ht. Qed.

Lemma blind_update f :
  (∀ s more, f (on_self (feed more) s) = on_self (feed more) (f s)) →
  queue_blind (update f).
Proof. intros Hf s more _. unfold update. cbn. by rewrite Hf. Qed.

Lemma blind_if {A} (b : bool) (c1 c2 : M A) :
  queue_blind c1 → queue_blind c2 → queue_blind (if b then c1 else c2).
Proof. by destruct b. Qed.

Lemma blind_load i : queue_blind (load i).
Proof. intros s more _. unfold load. cbn [self on_self mem feed with_in]. by case_match. Qed.

Lemma blind_store i w : queue_blind (store i w).
Proof.
  intros s more _. unfold store. cbn [self on_self mem feed with_in].
  by case_decide.
Qed.

Lemma blind_load_reg i : queue_blind (load_reg i).
Proof.
  intros s more _. unfold load_reg. cbn [self on_self reg feed with_in].
  by case_match.
Qed.

Lemma blind_store_reg i w : queue_blind (store_reg i w).
Proof.
  intros s more _. unfold store_reg. cbn [self on_self reg feed with_in].
  by case_decide.
Qed.

Lemma blind_recv_in : queue_blind recv_in.
Proof.
  intros s more. unfold recv_in. rewrite !bind_reads.
  cbn [self on_self quit feed with_in in_].
  destruct (quit (self s)); [done|]. rewrite !bind_reads.
  cbn [self on_self quit feed with_in in_].
  destruct (in_ (self s)) as [|v rest]; [done|]. intros _. reflexivity.
Qed.

End Producer.

(** One step of the proofs that a computation is [queue_blind]. *)
Ltac blind_step :=
  first
    [ apply blind_recv_in | apply blind_load | apply blind_store
    | apply blind_load_reg | apply blind_store_reg
    | apply blind_update; by intros
    | apply blind_bind; [|intros ?] | apply blind_if
    | apply (blind_still (λ _, _) (λ _, _)); by intros
    | apply (blind_still _ (λ _, _)); by intros ].
Ltac blind := repeat blind_step.

Section Interleavings.

Lemma blind_get arg : queue_blind (get arg).
Proof. unfold get, assertf, throw, unit_, reads. blind. Qed.

Lemma blind_set arg val : queue_blind (set arg val).
Proof. unfold set, assertf, throw, unit_, reads. blind. Qed.

Lemma blind_pop : queue_blind pop.
Proof.
  unfold pop, assertf, throw, unit_, reads. blind.
  destruct (last _); blind.
Qed.

Lemma blind_exec op : queue_blind (exec op).
Proof.
  switch_on op.
  all: unfold close_quit, push, send_out, throw, unit_, reads.
  all: repeat first [ apply blind_get | apply blind_set | apply blind_pop
                    | blind_step ].
Qed.

Lemma blind_turn : queue_blind turn.
Proof.
  unfold turn, advance, return_, reads.
  repeat first [ apply blind_exec | blind_step ].
Qed.

Lemma feed_feed a b v : feed b (feed a v) = feed (a ++ b) v.
Proof. unfold feed. cbn. by rewrite app_assoc. Qed.

Lemma moves_merged w w' :
  moves w w' →
  merged w' = merged w
  ∨ (res (turn (merged w)) = Val tt ∧ merged w' = post (turn (merged w))).
Proof.
  destruct 1 as [b rest s _|rest s Hres]; unfold merged; cbn [todo engine].
  - left. unfold on_self. cbn [self ip sz]. by rewrite feed_feed.
  - right. rewrite (blind_turn s rest) by (by rewrite Hres). done.
Qed.

Lemma drained_feed x v more :
  drained (deferred x (feed more v)) = drained (deferred x v).
Proof.
  unfold deferred. cbn [out feed with_in].
  destruct x as [[]|[msg|msg]| |]; try done; by destruct (closed (out v)).
Qed.

Lemma ends_loop w o :
  ends w o →
  ∃ fuel r, loop fuel (merged w) = Some r
            ∧ drained (deferred (res r) (self (post r))) = drained o.
Proof.
  induction 1 as [rest s Hval Hblock|w w' o Hmove _ (fuel & r & Hloop & Hobs)].
  - exists 1%nat, (turn (merged (World rest s))). unfold merged.
    cbn [todo engine loop]. rewrite (blind_turn s rest Hblock).
    cbn [res post self on_self]. split; [|apply drained_feed].
    destruct (res (turn s)) as [[]| | |]; try done. by destruct (Hval tt).
  - destruct (moves_merged _ _ Hmove) as [Heq|[Hres Heq]].
    + exists fuel, r. by rewrite <- Heq.
    + exists (S fuel), (after (touched (turn (merged w))) r).
      rewrite res_after, post_after. split; [|done]. cbn [loop].
      destruct (turn (merged w)) as [x s' t]. cbn [res post touched] in *.
      subst x s'. by rewrite Hloop.
Qed.

(** However the producer and the engine interleave, two executions that
    end differ at most in what is left on the inbound channel. *)
Lemma interleavings_agree w o1 o2 : ends w o1 → ends w o2 → drained o1 = drained o2.
Proof.
  intros (f1 & r1 & H1 & E1)%ends_loop (f2 & r2 & H2 & E2)%ends_loop.
  rewrite <- (loop_deterministic _ _ _ _ _ H1 H2) in E2. congruence.
Qed.

(** The run of the engine alone, all input queued, is one of the
    executions. *)
Lemma loop_ends fuel : ∀ s r,
  loop fuel s = Some r → res r ≠ Blocked →
  ends (World [] s) (deferred (res r) (self (post r))).
Proof.
  induction fuel as [|fuel IH]; intros s r; [done|]. cbn [loop].
  destruct (turn s) as [x s' t] eqn:E.
  destruct x as [[]|p| |].
  - destruct (loop fuel s') as [r'|] eqn:E'; [|done]. intros [= <-].
    rewrite res_after, post_after. intros Hb.
    apply (ends_later _ (World [] s')); [|by apply IH].
    replace s' with (post (turn s)) by (by rewrite E).
    apply moves_turn. by rewrite E.
  - intros [= <-] _. replace (Ran _ _ _) with (turn s).
    apply ends_now; by rewrite E.
  - intros [= <-] _. replace (Ran _ _ _) with (turn s).
    apply ends_now; by rewrite E.
  - by intros [= <-] ?.
Qed.

Lemma ends_now_eq rest s o :
  (∀ u, res (turn s) ≠ Val u) → res (turn s) ≠ Blocked →
  o = deferred (res (turn s)) (self (post (turn s))) →
  ends (World rest s) o.
Proof. intros ? ? ->. by apply ends_now. Qed.

(** C9. The engine is deterministic. For a fixed machine (its program
    image) and a fixed sequence of bytes the producer supplies on the
    inbound channel, with cancellation never requested, however the
    sends of the producer and the turns of the engine interleave, two
    executions that come to an end give the same completion result and
    the same outbound channel: the same bytes sent, closed or not. *)
Theorem run_deterministic v input o1 o2 :
  ends (World input (Frame v 0 0)) o1 →
  ends (World input (Frame v 0 0)) o2 →
  returned o1 = returned o2 ∧ out (machine_of o1) = out (machine_of o2).
Proof.
  intros H1 H2. pose proof (interleavings_agree _ _ _ H1 H2) as E.
  destruct o1, o2; cbn in E; simplify_eq; cbn; split; try done.
  all: match goal with H : with_in _ _ = with_in _ _ |- _ =>
         by apply (f_equal out) in H end.
Qed.

(** The sequential run is an execution too, so it gives what every other
    execution that ends gives. *)
Lemma run_ends fuel v o :
  run fuel v = Some o → (∀ v', o ≠ Waiting v') → ends (World [] (Frame v 0 0)) o.
Proof.
  unfold run. destruct (loop fuel _) as [r|] eqn:E; [|done]. intros [= <-] Hw.
  apply (loop_ends fuel); [done|]. intros Hb. rewrite Hb in Hw. by eapply Hw.
Qed.

End Interleavings.


(** ** Concrete machines *)

Section Examples.

(** C3, the claim as stated fails: the second request to halt panics. *)
Lemma halt_twice_panics :
  let v := fresh (image [21; 0]) in
  ∃ v1, halt v = inr v1 ∧ quit v1 = true ∧ halt v1 = inl close_panic.
Proof. intros v. by exists (with_quit true v). Qed.

Lemma halt_raises_once_witness :
  let v := fresh (image [21; 0]) in
  quit v = false ∧ halt v = inr (with_quit true v).
Proof.
  intros v. split; [reflexivity|].
  apply (halt_raises_once v). reflexivity.
Defined.

Lemma get_trichotomy_witness :
  let s := Frame (fresh [19; 32768; 0]) 0 1 in
  0 < 1 ∧ mem (self s) !! Z.to_nat (u16 (ip s + 1)) = Some 32768
  ∧ length (reg (self s)) = Z.to_nat nregs
  ∧ ∃ w, reg (self s) !! Z.to_nat (32768 - 32768) = Some w
         ∧ res (get 1 s) = Val w.
Proof.
  intros s. split; [lia|]. split; [reflexivity|]. split; [reflexivity|].
  destruct (get_trichotomy 1 s 32768 ltac:(lia) eq_refl eq_refl) as (_ & H & _).
  apply H. lia.
Defined.

(** C6, the claim as stated fails: jt 0 5 at address 0 resolves the target
    5 and leaves the instruction pointer on 3, the next instruction. *)
Lemma jt_zero_falls_through :
  let s := Frame (fresh (image [7; 0; 5])) 0 0 in
  mem (self s) !! Z.to_nat (ip s) = Some 7
  ∧ res (turn s) = Val tt
  ∧ res (get 2 s) = Val 5
  ∧ ip (post (turn s)) = 3
  ∧ ip (post (turn s)) ≠ 5.
Proof.
  intros s.
  assert (ip (post (turn s)) = 3) as H by (by vm_compute).
  split; [reflexivity|]. split; [by vm_compute|]. split; [by vm_compute|].
  split; [done|]. rewrite H. lia.
Qed.

Lemma jumps_set_ip_witness :
  let s := Frame (fresh (image [7; 1; 5])) 0 0 in
  wf_frame s ∧ quit (self s) = false
  ∧ mem (self s) !! Z.to_nat (ip s) = Some 7
  ∧ res (turn s) = Val tt
  ∧ ∃ a b, res (get 1 s) = Val a ∧ res (get 2 s) = Val b
           ∧ ip (post (turn s)) = if a =? 0 then u16 (ip s + 3) else b.
Proof.
  intros s.
  assert (wf_frame s) as Hwf by (by vm_compute).
  assert (res (turn s) = Val tt) as Hres by (by vm_compute).
  split; [done|]. split; [reflexivity|]. split; [reflexivity|]. split; [done|].
  apply (jumps_set_ip s 7 Hwf eq_refl eq_refl Hres). reflexivity.
Defined.

(** C8, the claim as stated fails. The program wmem 32767 21; jmp 32767
    writes a nop into the last word of memory and jumps to it; the turn
    after the nop fetches its opcode at index 32768. *)
Lemma fetch_past_the_end :
  let v := fresh (image [16; 32767; 21; 6; 32767]) in
  wf v ∧ ∃ s, reachable v s ∧ 32768 ∈ touched (turn s) ∧ ¬ 32768 < msize.
Proof.
  intros v. split; [by vm_compute|].
  set (s0 := Frame v 0 0). set (s1 := post (turn s0)).
  set (s2 := post (turn s1)). set (s3 := post (turn s2)).
  exists s3. split; [|split].
  - apply reach_turn; [apply reach_turn; [apply reach_turn; [apply reach_start|]|]|];
      by vm_compute.
  - assert (touched (turn s3) = [32768]) as -> by (by vm_compute).
    apply list_elem_of_here.
  - rewrite msize_eq. lia.
Qed.

Lemma accesses_checked_witness :
  let v := fresh (image [16; 32767; 21; 6; 32767]) in
  wf v ∧ reachable v (Frame v 0 0)
  ∧ ∀ i, i ∈ touched (turn (Frame v 0 0)) →
         0 ≤ i < 65536
         ∧ (i < msize ∨ res (turn (Frame v 0 0)) = Panicked (index_panic i msize)).
Proof.
  intros v.
  assert (wf v) as Hwf by (by vm_compute).
  split; [done|]. split; [apply reach_start|].
  apply (accesses_checked v (Frame v 0 0) Hwf). apply reach_start.
Defined.

Lemma register_opcodes_frame_witness :
  let s := Frame (fresh (image [9; 32768; 32769; 4; 19; 32768; 0])) 0 0 in
  quit (self s) = false
  ∧ mem (self s) !! Z.to_nat (ip s) = Some 9
  ∧ 9 ∈ [1; 4; 5; 9; 10; 11; 12; 13; 14; 15]
  ∧ res (turn s) = Val tt
  ∧ ∃ a, mem (self s) !! Z.to_nat (u16 (ip s + 1)) = Some a
         ∧ vreg ≤ a < vreg + nregs
         ∧ same_but_reg (Z.to_nat (u16 (a - vreg))) (self s) (self (post (turn s))).
Proof.
  intros s.
  assert (9 ∈ [1; 4; 5; 9; 10; 11; 12; 13; 14; 15]) as Hin by (by repeat constructor).
  assert (res (turn s) = Val tt) as Hres by (by vm_compute).
  split; [reflexivity|]. split; [reflexivity|]. split; [done|]. split; [done|].
  apply (register_opcodes_frame s 9 eq_refl eq_refl Hin Hres).
Defined.


(** nop; in r0; out r0; halt, with one byte to come: the producer may send
    it before the nop or after it. *)
Lemma run_deterministic_witness :
  let v := fresh [21; 20; 32768; 19; 32768; 0] in
  let o := Exited None (VM (mem v) [65; 0; 0; 0; 0; 0; 0; 0] [] []
                           (Chan [65] true) None true) in
  ends (World [65] (Frame v 0 0)) o ∧ ends (World [65] (Frame v 0 0)) o
  ∧ returned o = returned o ∧ out (machine_of o) = out (machine_of o).
Proof.
  intros v o.
  assert (ends (World [65] (Frame v 0 0)) o) as H1.
  { eapply ends_later; [apply moves_send; reflexivity|].
    do 4 (eapply ends_later; [apply moves_turn; reflexivity|]).
    apply ends_now_eq; [done|done|reflexivity]. }
  assert (ends (World [65] (Frame v 0 0)) o) as H2.
  { eapply ends_later; [apply moves_turn; reflexivity|].
    eapply ends_later; [apply moves_send; reflexivity|].
    do 3 (eapply ends_later; [apply moves_turn; reflexivity|]).
    apply ends_now_eq; [done|done|reflexivity]. }
  split; [exact H1|]. split; [exact H2|].
  exact (run_deterministic v [65] o o H1 H2).
Defined.

End Examples.

(** ** Running a turn forwards *)

Section Forwards.

Lemma get_ran arg s b :
  0 < arg → res (get arg s) = Val b →
  get arg s = Ran (Val b) (bump arg s) [operand arg s].
Proof.
  intros Harg. rewrite (get_eq _ _ Harg). cbv zeta.
  repeat case_match; cbn [res]; by intros [= ->].
Qed.

(** [get] under a bind, its value known from a frame with the same machine
    and instruction pointer. *)
Lemma bind_get {B} arg (k : Z → M B) s s0 b :
  res (get arg s0) = Val b → self s = self s0 → ip s = ip s0 → 0 < arg →
  bind (get arg) k s = after [operand arg s] (k b (bump arg s)).
Proof.
  intros Hb Hs Hi Harg. apply bind_val, get_ran; [done|].
  by rewrite (get_res_indep arg s s0).
Qed.

Lemma set_ran arg val s av :
  0 < arg → mem (self s) !! Z.to_nat (operand arg s) = Some av →
  32768 ≤ av ≤ 32775 → length (reg (self s)) = Z.to_nat nregs →
  set arg val s
  = Ran (Val tt)
        (on_self (with_reg (<[Z.to_nat (av - 32768) := val]> (reg (self s))))
                 (bump arg s))
        [operand arg s].
Proof.
  intros Harg Hav Hr Hlen. rewrite (set_eq _ _ _ Harg). cbv zeta.
  rewrite Hav, vreg_eq, nregs_eq. change (32768 + 8) with 32776.
  rewrite (proj2 (Z.leb_le 32768 av)) by lia.
  rewrite (proj2 (Z.ltb_lt av 32776)) by lia. cbn [andb].
  rewrite u16_id by lia.
  rewrite decide_True by (rewrite Hlen, nregs_eq; lia). done.
Qed.

Lemma u16_mod_vmod x : u16 x mod vmod = x mod 32768.
Proof.
  unfold u16. rewrite vmod_eq. change 65536 with (2 * 32768).
  rewrite Z.mul_comm. by rewrite Z.rem_mul_r, Z.mul_comm, Z.mod_add, Z.mod_mod by lia.
Qed.

Lemma u16_of_vmod x : u16 (x mod vmod) = x mod 32768.
Proof.
  rewrite vmod_eq. apply u16_id. pose proof (Z.mod_pos_bound x 32768). lia.
Qed.

Lemma lxor_low b : 0 ≤ b < 65536 → Z.lxor b 65535 = 65535 - b.
Proof.
  intros Hb. cut (b + Z.lxor b 65535 = 65535); [lia|].
  rewrite Z.add_nocarry_lxor.
  - by rewrite <- Z.lxor_assoc, Z.lxor_nilpotent, Z.lxor_0_l.
  - apply Z.bits_inj'. intros n Hn.
    rewrite Z.land_spec, Z.lxor_spec, Z.bits_0.
    destruct (Z.testbit b n) eqn:E; [|done]. cbn.
    destruct (decide (n < 16)) as [Hlt|Hge].
    + change 65535 with (Z.ones 16). by rewrite Z.ones_spec_low by lia.
    + rewrite Z.bits_above_log2 in E; [done|lia|].
      destruct (decide (b = 0)) as [->|]; [cbn; lia|].
      assert (Z.log2 b < 16) by (apply Z.log2_lt_pow2; lia). lia.
Qed.

Lemma not_15 b :
  0 ≤ b < 65536 → Z.land (Z.lxor b 65535) vmax = 32767 - b mod 32768.
Proof.
  intros Hb. rewrite (lxor_low _ Hb). change vmax with (Z.ones 15).
  rewrite Z.land_ones by lia. change (2 ^ 15) with 32768.
  replace (65535 - b) with (32767 - b mod 32768 + (1 - b / 32768) * 32768).
  - rewrite Z.mod_add by lia. apply Z.mod_small.
    pose proof (Z.mod_pos_bound b 32768). lia.
  - pose proof (Z.div_mod b 32768). lia.
Qed.

Lemma pop_ran t k x :
  stack (self t) = k ++ [x] → pop t = Ran (Val x) (on_self (with_stack k) t) [].
Proof.
  intros Hk. rewrite pop_eq, Hk, last_snoc, length_app. cbn [length].
  by rewrite Nat.add_sub, take_app_length.
Qed.

End Forwards.

(** ** What the opcodes compute *)

Section Opcodes.

Context (s : frame).
Hypothesis Hquit : quit (self s) = false.
Hypothesis Hregs : length (reg (self s)) = Z.to_nat nregs.

Lemma three_operands (f : Z → Z → Z) a b c :
  mem (self s) !! Z.to_nat (u16 (ip s + 1)) = Some a → 32768 ≤ a ≤ 32775 →
  res (get 2 s) = Val b → res (get 3 s) = Val c →
  bind (bind (get 2) (λ b, bind (get 3) (λ c, set 1 (f b c)))) (λ _, advance)
       (with_sz 1 s)
  = Ran (Val tt) (wrote s a (f b c) 4) [u16 (ip s + 2); u16 (ip s + 3); u16 (ip s + 1)].
Proof using Hquit Hregs.
  intros Ha Hr Hb Hc.
  erewrite bind_val; [|erewrite (bind_get 2 _ _ s b); [|done..|lia];
    erewrite (bind_get 3 _ _ s c); [|done..|lia];
    erewrite (set_ran 1 _ _ a); [reflexivity|lia|exact Ha|done|exact Hregs]].
  reflexivity.
Qed.

Lemma two_operands (f : Z → Z) a b :
  mem (self s) !! Z.to_nat (u16 (ip s + 1)) = Some a → 32768 ≤ a ≤ 32775 →
  res (get 2 s) = Val b →
  bind (bind (get 2) (λ b, set 1 (f b))) (λ _, advance) (with_sz 1 s)
  = Ran (Val tt) (wrote s a (f b) 3) [u16 (ip s + 2); u16 (ip s + 1)].
Proof using Hquit Hregs.
  intros Ha Hr Hb.
  erewrite bind_val; [|erewrite (bind_get 2 _ _ s b); [|done..|lia];
    erewrite (set_ran 1 _ _ a); [reflexivity|lia|exact Ha|done|exact Hregs]].
  reflexivity.
Qed.

(** rmem *)
Lemma rmem_opcode a b w :
  mem (self s) !! Z.to_nat (ip s) = Some 15 →
  mem (self s) !! Z.to_nat (u16 (ip s + 1)) = Some a → 32768 ≤ a ≤ 32775 →
  res (get 2 s) = Val b →
  mem (self s) !! Z.to_nat b = Some w →
  turn s = Ran (Val tt) (wrote s a w 3) [ip s; u16 (ip s + 2); b; u16 (ip s + 1)].
Proof using Hquit Hregs.
  intros Hop Ha Hr Hb Hw. rewrite (turn_eq _ _ Hquit Hop). unfold exec.
  erewrite bind_val; [|erewrite (bind_get 2 _ _ s b); [|done..|lia];
    erewrite (bind_val (load b)); [|by apply load_some];
    erewrite (set_ran 1 _ _ a); [reflexivity|lia|exact Ha|done|exact Hregs]].
  reflexivity.
Qed.

Lemma rmem_out_of_range b :
  mem (self s) !! Z.to_nat (ip s) = Some 15 →
  res (get 2 s) = Val b →
  mem (self s) !! Z.to_nat b = None →
  res (turn s) = Panicked (index_panic b (Z.of_nat (length (mem (self s)))))
  ∧ self (post (turn s)) = self s.
Proof using Hquit.
  clear Hregs.
  intros Hop Hb Hw. rewrite (turn_eq _ _ Hquit Hop).
  assert (load b (bump 2 (with_sz 1 s))
          = Ran (Panicked (index_panic b (Z.of_nat (length (mem (self s))))))
                (bump 2 (with_sz 1 s)) [b]) as Hl.
  { unfold load. cbn [self bump with_sz]. by rewrite Hw. }
  assert (exec 15 (with_sz 1 s)
          = Ran (Panicked (index_panic b (Z.of_nat (length (mem (self s))))))
                (bump 2 (with_sz 1 s)) [u16 (ip s + 2); b]) as He.
  { unfold exec. erewrite (bind_get 2 _ _ s b); [|done..|lia].
    by rewrite (bind_panicked _ _ _ _ _ _ Hl). }
  by rewrite (bind_panicked _ _ _ _ _ _ He).
Qed.

(** wmem *)
Lemma wmem_opcode a b :
  mem (self s) !! Z.to_nat (ip s) = Some 16 →
  res (get 1 s) = Val a → res (get 2 s) = Val b →
  (Z.to_nat a < length (mem (self s)))%nat →
  turn s = Ran (Val tt)
               (Frame (with_mem (<[Z.to_nat a := b]> (mem (self s))) (self s))
                      (u16 (ip s + 3)) 3)
               [ip s; u16 (ip s + 1); u16 (ip s + 2); a].
Proof using Hquit.
  clear Hregs.
  intros Hop Ha Hb Hlt. rewrite (turn_eq _ _ Hquit Hop). unfold exec.
  erewrite bind_val; [|erewrite (bind_get 1 _ _ s a); [|done..|lia];
    erewrite (bind_get 2 _ _ s b); [|done..|lia];
    unfold store; cbn [self bump with_sz]; rewrite decide_True by done;
    reflexivity].
  reflexivity.
Qed.

Lemma wmem_out_of_range a b :
  mem (self s) !! Z.to_nat (ip s) = Some 16 →
  res (get 1 s) = Val a → res (get 2 s) = Val b →
  (length (mem (self s)) ≤ Z.to_nat a)%nat →
  res (turn s) = Panicked (index_panic a (Z.of_nat (length (mem (self s)))))
  ∧ self (post (turn s)) = self s.
Proof using Hquit.
  clear Hregs.
  intros Hop Ha Hb Hge. rewrite (turn_eq _ _ Hquit Hop).
  assert (store a b (bump 2 (bump 1 (with_sz 1 s)))
          = Ran (Panicked (index_panic a (Z.of_nat (length (mem (self s))))))
                (bump 2 (bump 1 (with_sz 1 s))) [a]) as Hst.
  { unfold store. cbn [self bump with_sz]. by rewrite decide_False by lia. }
  assert (exec 16 (with_sz 1 s)
          = Ran (Panicked (index_panic a (Z.of_nat (length (mem (self s))))))
                (bump 2 (bump 1 (with_sz 1 s)))
                [u16 (ip s + 1); u16 (ip s + 2); a]) as He.
  { unfold exec. erewrite (bind_get 1 _ _ s a); [|done..|lia].
    erewrite (bind_get 2 _ _ s b); [|done..|lia]. by rewrite Hst. }
  by rewrite (bind_panicked _ _ _ _ _ _ He).
Qed.

(** push *)
Lemma push_opcode a :
  mem (self s) !! Z.to_nat (ip s) = Some 2 → res (get 1 s) = Val a →
  turn s = Ran (Val tt)
               (Frame (with_stack (stack (self s) ++ [a]) (self s))
                      (u16 (ip s + 2)) 2)
               [ip s; u16 (ip s + 1)].
Proof using Hquit.
  clear Hregs.
  intros Hop Ha. rewrite (turn_eq _ _ Hquit Hop). unfold exec.
  erewrite bind_val; [|erewrite (bind_get 1 _ _ s a); [|done..|lia]; reflexivity].
  reflexivity.
Qed.

(** pop *)
Lemma pop_opcode a k x :
  mem (self s) !! Z.to_nat (ip s) = Some 3 → stack (self s) = k ++ [x] →
  mem (self s) !! Z.to_nat (u16 (ip s + 1)) = Some a → 32768 ≤ a ≤ 32775 →
  turn s = Ran (Val tt)
               (Frame (with_reg (<[Z.to_nat (a - 32768) := x]> (reg (self s)))
                                (with_stack k (self s)))
                      (u16 (ip s + 2)) 2)
               [ip s; u16 (ip s + 1)].
Proof using Hquit Hregs.
  intros Hop Hk Ha Hr. rewrite (turn_eq _ _ Hquit Hop). unfold exec.
  erewrite bind_val; [|erewrite (bind_val pop); [|by apply (pop_ran _ k x)];
    erewrite (set_ran 1 _ _ a); [reflexivity|lia|exact Ha|done|exact Hregs]].
  reflexivity.
Qed.

Lemma pop_empty :
  mem (self s) !! Z.to_nat (ip s) = Some 3 → stack (self s) = [] →
  turn s = Ran (Panicked (PString "pop with empty stack")) (with_sz 1 s) [ip s].
Proof using Hquit.
  clear Hregs.
  intros Hop Hk. rewrite (turn_eq _ _ Hquit Hop). unfold exec.
  assert (pop (with_sz 1 s)
          = Ran (Panicked (PString "pop with empty stack")) (with_sz 1 s) [])
    as Hpop by (by rewrite pop_eq; cbn [self with_sz]; rewrite Hk).
  by rewrite (bind_panicked _ _ _ _ _ _ (bind_panicked _ _ _ _ _ _ Hpop)).
Qed.

(** call *)
Lemma call_opcode t :
  mem (self s) !! Z.to_nat (ip s) = Some 17 → res (get 1 s) = Val t →
  0 ≤ t < 65536 →
  turn s = Ran (Val tt)
               (Frame (with_stack (stack (self s) ++ [u16 (ip s + 2)]) (self s))
                      t 0)
               [ip s; u16 (ip s + 1)].
Proof using Hquit.
  clear Hregs.
  intros Hop Ht Hrange. rewrite (turn_eq _ _ Hquit Hop). unfold exec.
  erewrite bind_val; [|erewrite (bind_get 1 _ _ s t); [|done..|lia]; reflexivity].
  cbn [after app]. rewrite advance_eq. cbn [ip sz with_ip].
  rewrite Z.add_0_r, u16_id by done. reflexivity.
Qed.

(** ret *)
Lemma ret_opcode k x :
  mem (self s) !! Z.to_nat (ip s) = Some 18 → stack (self s) = k ++ [x] →
  0 ≤ x < 65536 →
  turn s = Ran (Val tt) (Frame (with_stack k (self s)) x 0) [ip s].
Proof using Hquit.
  clear Hregs.
  intros Hop Hk Hrange. rewrite (turn_eq _ _ Hquit Hop). unfold exec.
  erewrite bind_val; [|erewrite (bind_val pop); [|by apply (pop_ran _ k x)];
    reflexivity].
  cbn [after app]. rewrite advance_eq. cbn [ip sz with_ip].
  rewrite Z.add_0_r, u16_id by done. reflexivity.
Qed.

(** out *)
Lemma out_opcode a :
  mem (self s) !! Z.to_nat (ip s) = Some 19 → res (get 1 s) = Val a →
  closed (out (self s)) = false →
  turn s = Ran (Val tt)
               (Frame (with_out (Chan (sent (out (self s)) ++ [a mod 256]) false)
                                (self s))
                      (u16 (ip s + 2)) 2)
               [ip s; u16 (ip s + 1)].
Proof using Hquit.
  clear Hregs.
  intros Hop Ha Hc. rewrite (turn_eq _ _ Hquit Hop). unfold exec.
  erewrite bind_val; [|erewrite (bind_get 1 _ _ s a); [|done..|lia];
    unfold send_out; rewrite bind_reads; cbn [self bump with_sz];
    rewrite Hc; reflexivity].
  reflexivity.
Qed.

(** in *)
Lemma in_opcode a x rest :
  mem (self s) !! Z.to_nat (ip s) = Some 20 → in_ (self s) = x :: rest →
  mem (self s) !! Z.to_nat (u16 (ip s + 1)) = Some a → 32768 ≤ a ≤ 32775 →
  turn s = Ran (Val tt)
               (Frame (with_reg (<[Z.to_nat (a - 32768) := x]> (reg (self s)))
                                (with_in rest (self s)))
                      (u16 (ip s + 2)) 2)
               [ip s; u16 (ip s + 1)].
Proof using Hquit Hregs.
  intros Hop Hin Ha Hr. rewrite (turn_eq _ _ Hquit Hop). unfold exec.
  assert (recv_in (with_sz 1 s)
          = Ran (Val x) (on_self (with_in rest) (with_sz 1 s)) []) as Hrecv.
  { unfold recv_in. rewrite bind_reads. cbn [self with_sz]. rewrite Hquit.
    rewrite bind_reads. cbn [self with_sz]. by rewrite Hin. }
  erewrite bind_val; [|erewrite (bind_val recv_in); [|exact Hrecv];
    erewrite (set_ran 1 _ _ a); [reflexivity|lia|exact Ha|done|exact Hregs]].
  reflexivity.
Qed.

Lemma in_waits :
  mem (self s) !! Z.to_nat (ip s) = Some 20 → in_ (self s) = [] →
  turn s = Ran Blocked (with_sz 1 s) [ip s].
Proof using Hquit.
  clear Hregs.
  intros Hop Hin. rewrite (turn_eq _ _ Hquit Hop). unfold exec.
  assert (recv_in (with_sz 1 s) = Ran Blocked (with_sz 1 s) []) as Hrecv.
  { unfold recv_in. rewrite bind_reads. cbn [self with_sz]. rewrite Hquit.
    rewrite bind_reads. cbn [self with_sz]. by rewrite Hin. }
  unfold bind. by rewrite Hrecv.
Qed.

(** nop *)
Lemma nop_opcode :
  mem (self s) !! Z.to_nat (ip s) = Some 21 →
  turn s = Ran (Val tt) (Frame (self s) (u16 (ip s + 1)) 1) [ip s].
Proof using Hquit. clear Hregs. intros Hop. by rewrite (turn_eq _ _ Hquit Hop). Qed.

(** halt *)
Lemma halt_opcode :
  mem (self s) !! Z.to_nat (ip s) = Some 0 →
  turn s = Ran (Val tt) (Frame (with_quit true (self s)) (u16 (ip s + 1)) 1) [ip s].
Proof using Hquit.
  clear Hregs.
  intros Hop. rewrite (turn_eq _ _ Hquit Hop). unfold exec, close_quit.
  unfold bind at 1. rewrite bind_reads. cbn [self with_sz]. by rewrite Hquit.
Qed.

(** any other opcode *)
Lemma other_opcode op :
  mem (self s) !! Z.to_nat (ip s) = Some op → op < 0 ∨ 21 < op →
  turn s = Ran (Panicked (PString ("invalid op " +:+ pretty op +:+ " at "
                                   +:+ pretty (ip s))))
               (with_sz 1 s) [ip s].
Proof using Hquit.
  clear Hregs.
  intros Hop Hrange. rewrite (turn_eq _ _ Hquit Hop). clear Hop.
  switch_on op; try lia; reflexivity.
Qed.

End Opcodes.

(** X1. A turn on eq (4), gt (5), add (9), mult (10), mod (11), and (12)
    or or (13), its first operand a register reference and its two other
    operands resolving to b and c (c not zero for mod): the turn falls
    through, the register receives 1 or 0 for b = c, 1 or 0 for b > c,
    (b + c) mod 32768, (b * c) mod 32768, b mod c, b and c, b or c, the
    instruction pointer moves on by 4 words and nothing else changes; the
    sum and the product are 15-bit values. *)
Theorem alu_opcodes s op a b c :
  quit (self s) = false → length (reg (self s)) = Z.to_nat nregs →
  mem (self s) !! Z.to_nat (ip s) = Some op →
  op ∈ [4; 5; 9; 10; 11; 12; 13] →
  mem (self s) !! Z.to_nat (u16 (ip s + 1)) = Some a → 32768 ≤ a ≤ 32775 →
  res (get 2 s) = Val b → res (get 3 s) = Val c →
  (op = 11 → c ≠ 0) →
  turn s = Ran (Val tt) (wrote s a (alu op b c) 4)
               [ip s; u16 (ip s + 2); u16 (ip s + 3); u16 (ip s + 1)]
  ∧ (op = 9 ∨ op = 10 → 0 ≤ alu op b c ≤ 32767).
Proof.
  intros Hquit Hregs Hop Hin Ha Hr Hb Hc Hdiv. split.
  - rewrite (turn_eq _ _ Hquit Hop).
    repeat (apply elem_of_cons in Hin as [->|Hin]); [..|by apply elem_of_nil in Hin];
      unfold exec.
    + by rewrite (three_operands s Hquit Hregs (λ b c, cond (b =? c) 1 0) a b c).
    + by rewrite (three_operands s Hquit Hregs (λ b c, cond (c <? b) 1 0) a b c).
    + rewrite (three_operands s Hquit Hregs (λ b c, u16 (b + c) mod vmod) a b c)
        by done.
      by rewrite u16_mod_vmod.
    + rewrite (three_operands s Hquit Hregs (λ b c, u16 ((b * c) mod vmod)) a b c)
        by done.
      by rewrite u16_of_vmod.
    + erewrite bind_val; [|erewrite (bind_get 2 _ _ s b); [|done..|lia];
        erewrite (bind_get 3 _ _ s c); [|done..|lia];
        rewrite (proj2 (Z.eqb_neq c 0)) by (by apply Hdiv);
        erewrite (set_ran 1 _ _ a); [reflexivity|lia|exact Ha|done|exact Hregs]].
      reflexivity.
    + by rewrite (three_operands s Hquit Hregs Z.land a b c).
    + by rewrite (three_operands s Hquit Hregs Z.lor a b c).
  - intros [-> | ->]; cbn [alu].
    + pose proof (Z.mod_pos_bound (b + c) 32768). lia.
    + pose proof (Z.mod_pos_bound (b * c) 32768). lia.
Qed.

(** X2. A turn on set (1) or not (14), its first operand a register
    reference and its second resolving to the 16-bit word b: the register
    receives b for set and the 15-bit complement of b, 32767 - b mod 32768,
    for not; the instruction pointer moves on by 3 words and nothing else
    changes. *)
Theorem set_not_opcodes s op a b :
  quit (self s) = false → length (reg (self s)) = Z.to_nat nregs →
  mem (self s) !! Z.to_nat (ip s) = Some op → op = 1 ∨ op = 14 →
  mem (self s) !! Z.to_nat (u16 (ip s + 1)) = Some a → 32768 ≤ a ≤ 32775 →
  res (get 2 s) = Val b → 0 ≤ b < 65536 →
  turn s = Ran (Val tt)
               (wrote s a (if op =? 1 then b else 32767 - b mod 32768) 3)
               [ip s; u16 (ip s + 2); u16 (ip s + 1)].
Proof.
  intros Hquit Hregs Hop [-> | ->] Ha Hr Hb Hrange;
    rewrite (turn_eq _ _ Hquit Hop); unfold exec.
  - by rewrite (two_operands s Hquit Hregs (λ b, b) a b).
  - rewrite (two_operands s Hquit Hregs (λ b, Z.land (Z.lxor b 65535) vmax) a b)
      by done.
    by rewrite not_15.
Qed.

(** X3. A turn on out (19) whose operand resolves to a, the outbound
    channel open: what is sent is the low byte of a, a mod 256, behind
    what had been sent; the instruction pointer moves on by 2 words and
    nothing else changes. *)
Theorem out_sends_low_byte s a :
  quit (self s) = false →
  mem (self s) !! Z.to_nat (ip s) = Some 19 → res (get 1 s) = Val a →
  closed (out (self s)) = false →
  turn s = Ran (Val tt)
               (Frame (with_out (Chan (sent (out (self s)) ++ [a mod 256]) false)
                                (self s))
                      (u16 (ip s + 2)) 2)
               [ip s; u16 (ip s + 1)]
  ∧ 0 ≤ a mod 256 < 256.
Proof.
  intros Hquit Hop Ha Hc. split.
  - exact (out_opcode s Hquit a Hop Ha Hc).
  - apply Z.mod_pos_bound. lia.
Qed.

(** X4. A turn on in (20), its operand a register reference. With a byte
    queued on the inbound channel, the register receives the first byte
    and the queue loses it. With none, the turn waits and leaves the
    machine and the instruction pointer as they were, so that once bytes
    have been sent the same turn receives the first of them. *)
Theorem in_receives_or_waits s a :
  quit (self s) = false → length (reg (self s)) = Z.to_nat nregs →
  mem (self s) !! Z.to_nat (ip s) = Some 20 →
  mem (self s) !! Z.to_nat (u16 (ip s + 1)) = Some a → 32768 ≤ a ≤ 32775 →
  let received x rest :=
    Ran (Val tt)
        (Frame (with_reg (<[Z.to_nat (a - 32768) := x]> (reg (self s)))
                         (with_in rest (self s)))
               (u16 (ip s + 2)) 2)
        [ip s; u16 (ip s + 1)] in
  (∀ x rest, in_ (self s) = x :: rest → turn s = received x rest)
  ∧ (in_ (self s) = [] →
     turn s = Ran Blocked (with_sz 1 s) [ip s]
     ∧ ∀ x more,
         turn (on_self (feed (x :: more)) (post (turn s))) = received x more).
Proof.
  intros Hquit Hregs Hop Ha Hr received. split.
  - intros x rest Hin. exact (in_opcode s Hquit Hregs a x rest Hop Hin Ha Hr).
  - intros Hin. rewrite (in_waits s Hquit Hop Hin). split; [done|].
    intros x more. cbn [post].
    rewrite (in_opcode (on_self (feed (x :: more)) (with_sz 1 s))
                       Hquit Hregs a x more Hop); [done| |exact Ha|exact Hr].
    cbn [on_self with_sz self feed in_ with_in]. by rewrite Hin.
Qed.

(** X5. push a followed by pop r: the register r receives a, and the
    stack, the memory and the channels are what they were before the
    push. *)
Theorem push_then_pop s a r :
  quit (self s) = false → length (reg (self s)) = Z.to_nat nregs →
  mem (self s) !! Z.to_nat (ip s) = Some 2 → res (get 1 s) = Val a →
  mem (self s) !! Z.to_nat (u16 (ip s + 2)) = Some 3 →
  mem (self s) !! Z.to_nat (u16 (u16 (ip s + 2) + 1)) = Some r →
  32768 ≤ r ≤ 32775 →
  res (turn s) = Val tt
  ∧ turn (post (turn s))
    = Ran (Val tt)
          (Frame (with_reg (<[Z.to_nat (r - 32768) := a]> (reg (self s))) (self s))
                 (u16 (u16 (ip s + 2) + 2)) 2)
          [u16 (ip s + 2); u16 (u16 (ip s + 2) + 1)].
Proof.
  intros Hquit Hregs Hop Ha Hop' Hr Hrange.
  rewrite (push_opcode s Hquit a Hop Ha). split; [done|]. cbn [post].
  by rewrite (pop_opcode (Frame (with_stack (stack (self s) ++ [a]) (self s))
                                (u16 (ip s + 2)) 2)
                         Hquit Hregs r (stack (self s)) a) by done.
Qed.

(** X6. call t followed by the ret found at t: the call jumps to t, the
    ret comes back to the word after the call, and the machine, its stack
    included, is what it was before the call. *)
Theorem call_then_ret s t :
  quit (self s) = false →
  mem (self s) !! Z.to_nat (ip s) = Some 17 → res (get 1 s) = Val t →
  0 ≤ t < 65536 →
  mem (self s) !! Z.to_nat t = Some 18 →
  res (turn s) = Val tt
  ∧ ip (post (turn s)) = t
  ∧ turn (post (turn s)) = Ran (Val tt) (Frame (self s) (u16 (ip s + 2)) 0) [t].
Proof.
  intros Hquit Hop Ht Hrange Hop'.
  rewrite (call_opcode s Hquit t Hop Ht Hrange). split; [done|]. split; [done|].
  cbn [post].
  rewrite (ret_opcode (Frame (with_stack (stack (self s) ++ [u16 (ip s + 2)])
                                         (self s)) t 0)
                      Hquit (stack (self s)) (u16 (ip s + 2)));
    [|done..|apply u16_range].
  cbn [self ip]. do 2 f_equal. by destruct (self s).
Qed.

(** X7. wmem a b followed by rmem r a, the address a inside memory: the
    first turn writes b at a and nothing else, the second puts b in the
    register r and leaves memory as the write left it. *)
Theorem wmem_then_rmem s a b r :
  let s1 := post (turn s) in
  quit (self s) = false → length (reg (self s)) = Z.to_nat nregs →
  mem (self s) !! Z.to_nat (ip s) = Some 16 →
  res (get 1 s) = Val a → res (get 2 s) = Val b →
  (Z.to_nat a < length (mem (self s)))%nat →
  mem (self s1) !! Z.to_nat (ip s1) = Some 15 →
  mem (self s1) !! Z.to_nat (u16 (ip s1 + 1)) = Some r → 32768 ≤ r ≤ 32775 →
  res (get 2 s1) = Val a →
  res (turn s) = Val tt
  ∧ mem (self s1) = <[Z.to_nat a := b]> (mem (self s))
  ∧ res (turn s1) = Val tt
  ∧ reg (self (post (turn s1))) = <[Z.to_nat (r - 32768) := b]> (reg (self s))
  ∧ mem (self (post (turn s1))) = mem (self s1).
Proof.
  intros s1 Hquit Hregs Hop Ha Hb Hlt. subst s1.
  rewrite (wmem_opcode s Hquit a b Hop Ha Hb Hlt). cbn [post self ip mem with_mem].
  intros Hop' Hr Hrange Ha'.
  split; [done|]. split; [done|].
  rewrite (rmem_opcode (Frame (with_mem (<[Z.to_nat a := b]> (mem (self s)))
                                        (self s)) (u16 (ip s + 3)) 3)
                       Hquit Hregs r a b); [done|exact Hop'|exact Hr|done|exact Ha'|].
  cbn [self mem]. by apply list_lookup_insert_eq.
Qed.

(** ** The width of the instructions *)

Section Widths.

Lemma sized_bind {A C} f g (c : M A) (k : A → M C) :
  sized f c → (∀ a, sized g (k a)) → sized (λ n, g (f n)) (bind c k).
Proof.
  intros Hc Hk s. destruct (Hc s) as [Hip Hsz]. unfold bind.
  destruct (c s) as [[a|p| |] s' t]; cbn [res post] in *; try done.
  rewrite res_after, post_after. destruct (Hk a s') as [Hip' Hsz'].
  split; [congruence|]. intros b Hb. rewrite (Hsz' b Hb). by rewrite (Hsz a).
Qed.

Lemma sized_stop {A} f (x : frame → flow A) (t : frame → list Z) :
  (∀ s a, x s ≠ Val a) → sized f (λ s, Ran (x s) s (t s)).
Proof. intros Hx s. split; [done|]. intros a Ha. by destruct (Hx s a). Qed.

Lemma sized_still {A} (x : frame → flow A) (t : frame → list Z) :
  sized (λ n, n) (λ s, Ran (x s) s (t s)).
Proof. by intros s. Qed.

Lemma sized_on_self g : sized (λ n, n) (update (on_self g)).
Proof. by intros s. Qed.

Lemma sized_if {A} f (b : bool) (c1 c2 : M A) :
  sized f c1 → sized f c2 → sized f (if b then c1 else c2).
Proof. by destruct b. Qed.

Lemma sized_load i : sized (λ n, n) (load i).
Proof. intros s. unfold load. by case_match. Qed.

Lemma sized_store i w : sized (λ n, n) (store i w).
Proof. intros s. unfold store. by case_decide. Qed.

Lemma sized_get arg :
  0 < arg → sized (λ n, cond (n <? u16 (arg + 1)) (u16 (arg + 1)) n) (get arg).
Proof.
  intros Harg s. rewrite (get_post _ _ Harg). by split.
Qed.

Lemma sized_set arg val :
  0 < arg → sized (λ n, cond (n <? u16 (arg + 1)) (u16 (arg + 1)) n) (set arg val).
Proof.
  intros Harg s. rewrite (set_eq _ _ _ Harg). cbv zeta.
  repeat case_match; by split.
Qed.

Lemma sized_pop : sized (λ n, n) pop.
Proof. intros s. rewrite pop_eq. by case_match. Qed.

Lemma sized_recv_in : sized (λ n, n) recv_in.
Proof.
  intros s. unfold recv_in. rewrite bind_reads.
  destruct (quit (self s)); [done|]. rewrite bind_reads.
  by destruct (in_ (self s)).
Qed.

Lemma sized_close_quit : sized (λ n, n) close_quit.
Proof.
  intros s. unfold close_quit. rewrite bind_reads. by destruct (quit (self s)).
Qed.

Lemma sized_send_out b : sized (λ n, n) (send_out b).
Proof.
  intros s. unfold send_out. rewrite bind_reads. by destruct (closed _).
Qed.

Lemma sized_exec op :
  0 ≤ op ≤ 21 → op ∉ [6; 7; 8; 17; 18] → ∃ f, sized f (exec op) ∧ f 1 = width op.
Proof.
  rewrite !not_elem_of_cons. intros Hop (? & ? & ? & ? & ? & _).
  assert (op ∈ [0; 1; 2; 3; 4; 5; 9; 10; 11; 12; 13; 14; 15; 16; 19; 20; 21])
    as Hin by (rewrite !elem_of_cons; lia).
  repeat (apply elem_of_cons in Hin as [->|Hin]); [..|by apply elem_of_nil in Hin].
  all: unfold exec; eexists; split;
    [ repeat first
        [ apply sized_close_quit | apply sized_send_out | apply sized_pop
        | apply sized_recv_in | apply sized_load | apply sized_store
        | apply sized_get; lia | apply sized_set; lia
        | apply sized_on_self
        | eapply sized_bind; [|intros ?] | apply sized_if
        | apply (sized_stop _ (λ _, _) (λ _, _)); by intros
        | apply (sized_still (λ _, _) (λ _, _)) ]
    | reflexivity ].
Qed.

End Widths.

(** X27. A turn that falls through on an opcode other than the jumps, call
    and ret has a valid opcode and moves the instruction pointer on by the
    width of its instruction, modulo 65536: 1 word for halt and nop, 2 for
    push, pop, out and in, 3 for set, not, rmem and wmem, 4 for eq, gt,
    add, mult, mod, and, or. The width depends on the opcode alone. *)
Theorem instructions_advance_by_their_width s op :
  quit (self s) = false → mem (self s) !! Z.to_nat (ip s) = Some op →
  op ∉ [6; 7; 8; 17; 18] →
  res (turn s) = Val tt →
  0 ≤ op ≤ 21
  ∧ ip (post (turn s)) = u16 (ip s + width op)
  ∧ sz (post (turn s)) = width op.
Proof.
  intros Hq Hop Hjump Hres.
  destruct (turn_val s op Hq Hop Hres) as [He ->].
  assert (0 ≤ op ≤ 21) as Hrange.
  { destruct (decide (0 ≤ op ≤ 21)) as [|Hout]; [done|].
    exfalso. clear -He Hout. revert He. switch_on op; try lia; done. }
  split; [done|].
  destruct (sized_exec op Hrange Hjump) as (f & Hf & Hw).
  destruct (Hf (with_sz 1 s)) as [Hip Hsz].
  specialize (Hsz tt He). cbn [ip sz with_ip with_sz] in *.
  by rewrite Hsz, Hip, Hw.
Qed.

(** ** What each opcode leaves alone *)

Section Untouched.

Context {B : Type} (f : vm → B).

Lemma untouched_bind {A C} (c : M A) (k : A → M C) :
  untouched f c → (∀ a, untouched f (k a)) → untouched f (bind c k).
Proof.
  intros Hc Hk s. specialize (Hc s). unfold bind.
  destruct (c s) as [[a|p| |] s' t]; cbn [post] in *; try done.
  rewrite post_after. by rewrite Hk.
Qed.

Lemma untouched_still {A} (x : frame → flow A) (t : frame → list Z) :
  untouched f (λ s, Ran (x s) s (t s)).
Proof. by intros s. Qed.

Lemma untouched_update g :
  (∀ s, f (self (g s)) = f (self s)) → untouched f (update g).
Proof. intros Hg s. apply Hg. Qed.

Lemma untouched_if {A} (b : bool) (c1 c2 : M A) :
  untouched f c1 → untouched f c2 → untouched f (if b then c1 else c2).
Proof. by destruct b. Qed.

Lemma untouched_load i : untouched f (load i).
Proof. intros s. by rewrite load_post. Qed.

Lemma untouched_store i w :
  (∀ m v, f (with_mem m v) = f v) → untouched f (store i w).
Proof. intros Hf s. unfold store. case_decide; [apply Hf|done]. Qed.

Lemma untouched_get arg : untouched f (get arg).
Proof.
  intros s. destruct (decide (0 < arg)) as [Harg|Harg].
  - by rewrite get_post.
  - unfold get, assertf. replace (0 <? arg) with false; [done|].
    symmetry. apply Z.ltb_ge. lia.
Qed.

Lemma untouched_set arg val :
  (∀ r v, f (with_reg r v) = f v) → untouched f (set arg val).
Proof.
  intros Hf s. destruct (decide (0 < arg)) as [Harg|Harg].
  - rewrite (set_eq _ _ _ Harg). cbv zeta. repeat case_match; try done.
    apply Hf.
  - unfold set, assertf. replace (0 <? arg) with false; [done|].
    symmetry. apply Z.ltb_ge. lia.
Qed.

Lemma untouched_pop : (∀ k v, f (with_stack k v) = f v) → untouched f pop.
Proof. intros Hf s. rewrite pop_eq. case_match; [apply Hf|done]. Qed.

Lemma untouched_recv_in : (∀ i v, f (with_in i v) = f v) → untouched f recv_in.
Proof.
  intros Hf s. unfold recv_in. rewrite bind_reads.
  destruct (quit (self s)); [done|]. rewrite bind_reads.
  destruct (in_ (self s)); [done|]. apply Hf.
Qed.

(** A whole turn leaves [f] alone when its opcode does. *)
Lemma untouched_turn s :
  (∀ op, mem (self s) !! Z.to_nat (ip s) = Some op → untouched f (exec op)) →
  f (self (post (turn s))) = f (self s).
Proof.
  intros Hop. unfold turn. rewrite bind_reads.
  destruct (quit (self s)); [done|]. rewrite bind_reads.
  unfold bind at 1, load.
  destruct (mem (self s) !! Z.to_nat (ip s)) as [op|]; [|done].
  rewrite post_after, bind_update.
  apply (untouched_bind (exec op) (λ _, advance) (Hop op eq_refl)
                        (λ _ t, eq_refl) (with_sz 1 s)).
Qed.

End Untouched.

(** One step of a proof that an opcode leaves a part of the machine alone. *)
Ltac untouched_step :=
  first
    [ apply untouched_get | apply untouched_load
    | apply untouched_set; by intros | apply untouched_pop; by intros
    | apply untouched_store; by intros | apply untouched_recv_in; by intros
    | apply untouched_update; by intros
    | apply untouched_bind; [|intros ?] | apply untouched_if
    | apply (untouched_still _ (λ _, _) (λ _, _)) ].

Ltac untouched_exec op :=
  switch_on op; try done; try lia;
  unfold close_quit, push, send_out, throw, unit_, reads;
  repeat untouched_step.

Section Footprints.

Context (op : Z).

Lemma exec_mem : op ≠ 16 → untouched mem (exec op).
Proof. intros H. untouched_exec op. Qed.

Lemma exec_stack :
  op ≠ 2 → op ≠ 3 → op ≠ 17 → op ≠ 18 → untouched stack (exec op).
Proof. intros ? ? ? ?. untouched_exec op. Qed.

Lemma exec_reg :
  op ≤ 0 ∨ op = 2 ∨ 6 ≤ op ≤ 8 ∨ 16 ≤ op ≤ 19 ∨ 21 ≤ op →
  untouched reg (exec op).
Proof. intros H. untouched_exec op. Qed.

Lemma exec_out : op ≠ 19 → untouched out (exec op).
Proof. intros H. untouched_exec op. Qed.

Lemma exec_in : op ≠ 20 → untouched in_ (exec op).
Proof. intros H. untouched_exec op. Qed.

Lemma exec_quit : op ≠ 0 → untouched quit (exec op).
Proof. intros H. untouched_exec op. Qed.

Lemma exec_done : untouched done (exec op).
Proof. untouched_exec op. Qed.

End Footprints.

(** X8. Whatever a turn does and however it ends, memory is written by
    wmem (16) alone, the stack is changed by push, pop, call and ret (2,
    3, 17, 18) alone, and the registers are left alone by every opcode
    that has no register to write: halt, push, jmp, jt, jf, wmem, call,
    ret, out, nop and the invalid ones. *)
Theorem state_footprint s op :
  mem (self s) !! Z.to_nat (ip s) = Some op →
  (op ≠ 16 → mem (self (post (turn s))) = mem (self s))
  ∧ (op ≠ 2 → op ≠ 3 → op ≠ 17 → op ≠ 18 →
     stack (self (post (turn s))) = stack (self s))
  ∧ (op ≤ 0 ∨ op = 2 ∨ 6 ≤ op ≤ 8 ∨ 16 ≤ op ≤ 19 ∨ 21 ≤ op →
     reg (self (post (turn s))) = reg (self s)).
Proof.
  intros Hop. repeat split; intros; apply untouched_turn;
    intros op' Hop'; rewrite Hop in Hop'; injection Hop' as <-.
  - by apply exec_mem.
  - by apply exec_stack.
  - by apply exec_reg.
Qed.

(** X9. Whatever a turn does and however it ends, the outbound channel is
    touched by out (19) alone, the inbound channel by in (20) alone, the
    quit channel by the halt opcode (0) alone, and the completion channel
    by no opcode. *)
Theorem channel_footprint s op :
  mem (self s) !! Z.to_nat (ip s) = Some op →
  (op ≠ 19 → out (self (post (turn s))) = out (self s))
  ∧ (op ≠ 20 → in_ (self (post (turn s))) = in_ (self s))
  ∧ (op ≠ 0 → quit (self (post (turn s))) = quit (self s))
  ∧ done (self (post (turn s))) = done (self s).
Proof.
  intros Hop. repeat split; intros; apply untouched_turn;
    intros op' Hop'; rewrite Hop in Hop'; injection Hop' as <-.
  - by apply exec_out.
  - by apply exec_in.
  - by apply exec_quit.
  - by apply exec_done.
Qed.

(** ** What is sent stays sent *)

Section Appends.

Lemma appends_untouched {A} (c : M A) : untouched out c → appends c.
Proof. intros Hc s. exists []. by rewrite Hc, app_nil_r. Qed.

Lemma appends_bind {A C} (c : M A) (k : A → M C) :
  appends c → (∀ a, appends (k a)) → appends (bind c k).
Proof.
  intros Hc Hk s. destruct (Hc s) as (m1 & Hs1 & Hc1). unfold bind.
  destruct (c s) as [[a|p| |] s' t]; cbn [post] in *; try by exists m1.
  rewrite post_after. destruct (Hk a s') as (m2 & Hs2 & Hc2).
  exists (m1 ++ m2). rewrite Hs2, Hs1, Hc2, Hc1. by rewrite app_assoc.
Qed.

Lemma appends_send_out b : appends (send_out b).
Proof.
  intros s. unfold send_out. rewrite bind_reads.
  destruct (closed (out (self s))) eqn:E.
  - exists []. by rewrite app_nil_r.
  - by exists [b].
Qed.

Lemma appends_exec op : appends (exec op).
Proof.
  destruct (decide (op = 19)) as [->|Hop].
  - unfold exec. apply appends_bind; [apply appends_untouched, untouched_get|].
    intros a. apply appends_send_out.
  - by apply appends_untouched, exec_out.
Qed.

Lemma appends_turn : appends turn.
Proof.
  unfold turn, advance.
  repeat first
    [ apply appends_exec
    | apply appends_bind; [|intros ?]
    | apply appends_untouched; first
        [ apply untouched_load | apply untouched_update; by intros
        | apply (untouched_still _ (λ _, _) (λ _, _))
        | apply (untouched_still _ _ (λ _, _)) ]
    | match goal with |- appends (if ?b then _ else _) => destruct b end ].
Qed.

Lemma appends_loop fuel : ∀ s r,
  loop fuel s = Some r →
  ∃ more, sent (out (self (post r))) = sent (out (self s)) ++ more
          ∧ closed (out (self (post r))) = closed (out (self s)).
Proof.
  induction fuel as [|fuel IH]; intros s r; [done|]. cbn [loop].
  destruct (appends_turn s) as (m1 & Hs1 & Hc1).
  destruct (turn s) as [[[]|p| |] s' t]; cbn [post] in *;
    try (intros [= <-]; by exists m1).
  destruct (loop fuel s') as [r'|] eqn:E; [|done]. intros [= <-].
  rewrite post_after. destruct (IH _ _ E) as (m2 & Hs2 & Hc2).
  exists (m1 ++ m2). rewrite Hs2, Hs1, Hc2, Hc1. by rewrite app_assoc.
Qed.

End Appends.

(** X10. Whatever a run does, what had been sent on the outbound channel
    before it is a prefix of what has been sent when it ends: nothing is
    taken back or reordered. A run that returns leaves the channel closed,
    a run that dies on a run-time panic leaves it as it was. *)
Theorem output_only_grows fuel v o :
  run fuel v = Some o →
  (∃ more, sent (out (machine_of o)) = sent (out v) ++ more)
  ∧ (∀ err v', o = Exited err v' → closed (out v') = true)
  ∧ (∀ p v', o = Crashed p v' → closed (out v') = closed (out v)).
Proof.
  unfold run. destruct (loop fuel _) as [r|] eqn:E; [|done]. intros [= <-].
  destruct (appends_loop _ _ _ E) as (more & Hs & Hc). cbn [self] in *.
  unfold deferred.
  destruct (res r) as [[]|[msg|msg]| |];
    try destruct (closed (out (self (post r)))) eqn:Ec; cbn [machine_of out with_out sent];
    (split; [by exists more|]); split; intros ? ? [= <- <-] || intros ? ? [=]; try done;
    cbn [out with_out closed]; congruence.
Qed.

(** ** From a turn to the run *)

Section ToTheRun.

Lemma reachable_loop v s :
  reachable v s →
  ∀ fuel r, loop fuel s = Some r →
  ∃ fuel' r', loop fuel' (Frame v 0 0) = Some r'
              ∧ res r' = res r ∧ post r' = post r.
Proof.
  induction 1 as [|s _ IH Hres]; intros fuel r Hloop; [by eauto|].
  destruct (IH (S fuel) (after (touched (turn s)) r)) as (f' & r' & ? & ? & ?).
  - cbn [loop]. destruct (turn s) as [x s' t]. cbn [res post touched] in *.
    subst x. by rewrite Hloop.
  - exists f', r'. by rewrite res_after, post_after in *.
Qed.

(** The run of a machine that reaches [s], where the turn at [s] leaves
    the loop. *)
Lemma reachable_run v s :
  reachable v s → (∀ u, res (turn s) ≠ Val u) →
  ∃ fuel, ∀ n,
    run (fuel + n) v = Some (deferred (res (turn s)) (self (post (turn s)))).
Proof.
  intros Hs Hend.
  destruct (reachable_loop v s Hs 1 (turn s)) as (fuel & r & Hloop & Hr & Hp).
  { cbn [loop]. destruct (turn s) as [[u| | |] s' t] eqn:E; try done.
    by destruct (Hend u). }
  exists fuel. intros n. unfold run.
  rewrite (loop_more _ n _ _ Hloop). by rewrite Hr, Hp.
Qed.

Lemma reachable_out v s :
  reachable v s →
  closed (out (self s)) = closed (out v)
  ∧ ∃ more, sent (out (self s)) = sent (out v) ++ more.
Proof.
  induction 1 as [|s _ [IHc [m IHs]] _].
  - split; [done|]. exists []. by rewrite app_nil_r.
  - destruct (appends_turn s) as (m' & Hs & Hc). split; [congruence|].
    exists (m ++ m'). by rewrite Hs, IHs, app_assoc.
Qed.

Lemma ret_empty s :
  quit (self s) = false →
  mem (self s) !! Z.to_nat (ip s) = Some 18 → stack (self s) = [] →
  turn s = Ran (Panicked (PString "pop with empty stack")) (with_sz 1 s) [ip s].
Proof.
  intros Hquit Hop Hk. rewrite (turn_eq _ _ Hquit Hop). unfold exec.
  assert (pop (with_sz 1 s)
          = Ran (Panicked (PString "pop with empty stack")) (with_sz 1 s) [])
    as Hpop by (by rewrite pop_eq; cbn [self with_sz]; rewrite Hk).
  by rewrite (bind_panicked _ _ _ _ _ _ (bind_panicked _ _ _ _ _ _ Hpop)).
Qed.

End ToTheRun.

(** X11. A failed assertion of the interpreter (a panic carrying a
    string), in whatever turn of a run it happens, is what run returns as
    its error: the deferred handler recovers it and closes the outbound
    channel over all that was sent, on a machine started with that channel
    open. *)
Theorem assertion_failures_are_returned v s msg :
  closed (out v) = false → reachable v s →
  res (turn s) = Panicked (PString msg) →
  ∃ fuel more, ∀ n,
    run (fuel + n) v
    = Some (Exited (Some msg)
                   (with_out (Chan (sent (out v) ++ more) true)
                             (self (post (turn s))))).
Proof.
  intros Hc Hs Ht.
  destruct (reachable_run v s Hs) as [fuel Hrun]; [by rewrite Ht|].
  destruct (reachable_out v s Hs) as [Hcs [m Hm]].
  destruct (appends_turn s) as (m' & Hs' & Hc').
  exists fuel, (m ++ m'). intros n. rewrite Hrun, Ht. unfold deferred.
  rewrite Hc', Hcs, Hc, Hs', Hm. by rewrite app_assoc.
Qed.

(** X12. An opcode outside 0..21, met anywhere in a run: the run returns
    the error naming the opcode and its address, the outbound channel
    closed over what had been sent and the machine otherwise as the turn
    found it. *)
Theorem invalid_opcode_is_returned v s op :
  closed (out v) = false → reachable v s → quit (self s) = false →
  mem (self s) !! Z.to_nat (ip s) = Some op → op < 0 ∨ 21 < op →
  ∃ fuel, ∀ n,
    run (fuel + n) v
    = Some (Exited (Some ("invalid op " +:+ pretty op +:+ " at " +:+ pretty (ip s)))
                   (with_out (Chan (sent (out (self s))) true) (self s))).
Proof.
  intros Hc Hs Hq Hop Hrange.
  pose proof (other_opcode s Hq op Hop Hrange) as Ht.
  destruct (reachable_run v s Hs) as [fuel Hrun]; [by rewrite Ht|].
  destruct (reachable_out v s Hs) as [Hcs _].
  exists fuel. intros n. rewrite Hrun, Ht. unfold deferred.
  cbn [res post self with_sz]. by rewrite Hcs, Hc.
Qed.

(** X13. pop (3) or ret (18) on an empty stack, met anywhere in a run: the
    run returns the error "pop with empty stack", the outbound channel
    closed over what had been sent and the machine otherwise as the turn
    found it. *)
Theorem empty_stack_is_returned v s op :
  closed (out v) = false → reachable v s → quit (self s) = false →
  mem (self s) !! Z.to_nat (ip s) = Some op → op = 3 ∨ op = 18 →
  stack (self s) = [] →
  ∃ fuel, ∀ n,
    run (fuel + n) v
    = Some (Exited (Some "pop with empty stack")
                   (with_out (Chan (sent (out (self s))) true) (self s))).
Proof.
  intros Hc Hs Hq Hop Hcase Hk.
  assert (turn s = Ran (Panicked (PString "pop with empty stack"))
                       (with_sz 1 s) [ip s]) as Ht.
  { destruct Hcase as [-> | ->]; [by apply pop_empty|by apply ret_empty]. }
  destruct (reachable_run v s Hs) as [fuel Hrun]; [by rewrite Ht|].
  destruct (reachable_out v s Hs) as [Hcs _].
  exists fuel. intros n. rewrite Hrun, Ht. unfold deferred.
  cbn [res post self with_sz]. by rewrite Hcs, Hc.
Qed.

(** X14. The halt opcode (0), met anywhere in a run: the run returns nil
    at the top of the next turn, whatever follows in memory; nothing more
    is sent, the outbound channel is closed, quit is left closed and the
    rest of the machine is as the opcode found it. *)
Theorem halt_opcode_ends_the_run v s :
  closed (out v) = false → reachable v s → quit (self s) = false →
  mem (self s) !! Z.to_nat (ip s) = Some 0 →
  ∃ fuel, ∀ n,
    run (fuel + n) v
    = Some (Exited None (with_out (Chan (sent (out (self s))) true)
                                  (with_quit true (self s)))).
Proof.
  intros Hc Hs Hq Hop.
  pose proof (halt_opcode s Hq Hop) as Ht.
  destruct (reachable_out v s Hs) as [Hcs _].
  assert (reachable v (post (turn s))) as Hs' by (apply reach_turn; by rewrite ?Ht).
  rewrite Ht in Hs'. cbn [post] in Hs'.
  destruct (reachable_run v _ Hs') as [fuel Hrun]; [by rewrite turn_quit|].
  exists fuel. intros n. rewrite Hrun, turn_quit by done. unfold deferred.
  cbn [res post self out with_quit]. by rewrite Hcs, Hc.
Qed.

(** X15. A halt requested before the machine is run: the run returns nil
    at the top of its first turn, whatever the program; no instruction is
    executed, nothing is sent and the outbound channel is closed. *)
Theorem halt_before_run v n :
  quit v = false → closed (out v) = false →
  ∃ v1, halt v = inr v1
        ∧ run (S n) v1 = Some (Exited None (with_out (Chan (sent (out v)) true) v1)).
Proof.
  intros Hq Hc. exists (with_quit true v). unfold halt. rewrite Hq.
  split; [done|]. unfold run. cbn [loop].
  rewrite turn_quit by done. unfold deferred. cbn [res post self out with_quit].
  by rewrite Hc.
Qed.

Section Crashes.

Lemma fetch_refused s :
  quit (self s) = false → mem (self s) !! Z.to_nat (ip s) = None →
  turn s = Ran (Panicked (index_panic (ip s) (Z.of_nat (length (mem (self s))))))
               s [ip s].
Proof.
  intros Hq Hop. unfold turn. rewrite bind_reads, Hq, bind_reads.
  unfold bind, load. by rewrite Hop.
Qed.

End Crashes.

(** X25. A run-time panic of Go (an index out of range, a division by
    zero), in whatever turn of a run it happens, is not turned into an
    error: the type assertion of the deferred handler panics in its turn,
    run never returns and the outbound channel is not closed. *)
Theorem runtime_panics_end_the_process v s msg :
  reachable v s → res (turn s) = Panicked (PRuntime msg) →
  closed (out (self (post (turn s)))) = closed (out v)
  ∧ ∃ fuel, ∀ n,
      run (fuel + n) v = Some (Crashed assertion_panic (self (post (turn s)))).
Proof.
  intros Hs Ht. split.
  - destruct (reachable_out v s Hs) as [Hcs _].
    destruct (appends_turn s) as (m & _ & Hc). congruence.
  - destruct (reachable_run v s Hs) as [fuel Hrun]; [by rewrite Ht|].
    exists fuel. intros n. by rewrite Hrun, Ht.
Qed.

(** X26. A memory access outside the array, met anywhere in a run, kills
    the run: the opcode fetch at an instruction pointer past the end of
    memory, rmem from an address past the end, and wmem to one (the
    address can only come from a register). The machine is left as the
    turn found it, nothing is written and run never returns. *)
Theorem out_of_range_access_crashes v s :
  reachable v s → quit (self s) = false →
  mem (self s) !! Z.to_nat (ip s) = None
  ∨ (∃ a, mem (self s) !! Z.to_nat (ip s) = Some 15
          ∧ res (get 2 s) = Val a ∧ mem (self s) !! Z.to_nat a = None)
  ∨ (∃ a b, mem (self s) !! Z.to_nat (ip s) = Some 16
            ∧ res (get 1 s) = Val a ∧ res (get 2 s) = Val b
            ∧ (length (mem (self s)) ≤ Z.to_nat a)%nat) →
  ∃ fuel, ∀ n, run (fuel + n) v = Some (Crashed assertion_panic (self s)).
Proof.
  intros Hs Hq Hcase.
  assert (∃ i, res (turn s)
               = Panicked (index_panic i (Z.of_nat (length (mem (self s)))))
               ∧ self (post (turn s)) = self s) as (i & Ht & Hself).
  { destruct Hcase as [Hop | [(a & Hop & Ha & Hnone) | (a & b & Hop & Ha & Hb & Hlen)]].
    - exists (ip s). by rewrite fetch_refused.
    - exists a. by apply rmem_out_of_range.
    - exists a. by apply (wmem_out_of_range s Hq a b). }
  destruct (reachable_run v s Hs) as [fuel Hrun]; [by rewrite Ht|].
  exists fuel. intros n. by rewrite Hrun, Ht, Hself.
Qed.

(** ** A sled of nops *)

Section Sled.

Context (v : vm).
Hypothesis Hquit : quit v = false.

Lemma sled_loop (k : nat) : ∀ i z,
  0 ≤ i → i + Z.of_nat k + 1 < 65536 →
  (∀ j, i ≤ j < i + Z.of_nat k → mem v !! Z.to_nat j = Some 21) →
  mem v !! Z.to_nat (i + Z.of_nat k) = Some 0 →
  loop (k + 1) (Frame v i z) = None
  ∧ ∃ t, loop (k + 2) (Frame v i z)
         = Some (Ran Returned (Frame (with_quit true v) (i + Z.of_nat k + 1) 1) t).
Proof using Hquit.
  induction k as [|k IH]; intros i z Hi Hend Hnop Hhalt.
  - rewrite Z.add_0_r in *. cbn [Nat.add loop].
    rewrite (halt_opcode (Frame v i z) Hquit Hhalt). cbn [self ip fmap option_fmap option_map].
    rewrite turn_quit by done. rewrite u16_id by lia. split; [done|].
    by eexists.
  - assert (mem v !! Z.to_nat i = Some 21) as Hop by (apply Hnop; lia).
    destruct (IH (i + 1) 1) as [Hnone [t Hsome]]; [lia|lia| | |].
    { intros j Hj. apply Hnop. lia. }
    { by replace (i + 1 + Z.of_nat k) with (i + Z.of_nat (S k)) by lia. }
    change (S k + 1)%nat with (S (k + 1)). change (S k + 2)%nat with (S (k + 2)).
    cbn [loop]. rewrite (nop_opcode (Frame v i z) Hquit Hop). cbn [self ip].
    rewrite u16_id by lia. rewrite Hnone, Hsome. split; [done|].
    cbn. eexists. do 3 f_equal. lia.
Qed.

End Sled.

(** X16. A program of N nops followed by halt runs for exactly N + 2
    turns of the loop (the nops, the halt and the turn that sees quit
    closed): N + 1 turns do not end it, and from N + 2 turns on the run
    returns nil on the machine it was started on, quit and the outbound
    channel closed. *)
Theorem nop_sled v (N n : nat) :
  quit v = false → closed (out v) = false → Z.of_nat N < 65535 →
  (∀ j, (j < N)%nat → mem v !! j = Some 21) → mem v !! N = Some 0 →
  run (N + 1) v = None
  ∧ run (N + 2 + n) v
    = Some (Exited None (with_out (Chan (sent (out v)) true) (with_quit true v))).
Proof.
  intros Hquit Hc HN Hnop Hhalt.
  destruct (sled_loop v Hquit N 0 0) as [Hnone [t Hsome]]; [lia|lia| | |].
  { intros j Hj. apply Hnop. lia. }
  { by rewrite Z.add_0_l, Nat2Z.id. }
  unfold run. rewrite Hnone. split; [done|].
  rewrite (loop_more _ n _ _ Hsome). unfold deferred.
  cbn [res post self out with_quit]. by rewrite Hc.
Qed.

(** ** The loader, again *)

Section LoaderMore.

Lemma decode_bytes_of ws : decode (bytes_of ws) = ws.
Proof.
  induction ws as [|w ws IH]; [done|].
  change (bytes_of (w :: ws)) with (Z.land w 255 :: Z.shiftr w 8 :: bytes_of ws).
  cbn [decode]. rewrite IH. f_equal.
  apply Z.bits_inj'. intros n Hn.
  rewrite Z.lor_spec, Z.land_spec. change 255 with (Z.ones 8).
  destruct (decide (n < 8)) as [Hlt|Hge].
  - rewrite Z.ones_spec_low by lia. rewrite Z.shiftl_spec_low by lia.
    by rewrite andb_true_r, orb_false_r.
  - rewrite Z.ones_spec_high by lia. rewrite Z.shiftl_spec by lia.
    rewrite Z.shiftr_spec by lia. rewrite andb_false_r. cbn. f_equal. lia.
Qed.

Lemma length_bytes_of ws : length (bytes_of ws) = (2 * length ws)%nat.
Proof.
  induction ws as [|w ws IH]; [done|].
  change (bytes_of (w :: ws)) with (Z.land w 255 :: Z.shiftr w 8 :: bytes_of ws).
  cbn [length]. lia.
Qed.

Lemma bytes_of_bytes ws : Forall is_u16 ws → Forall is_u8 (bytes_of ws).
Proof.
  induction 1 as [|w ws Hw _ IH]; [constructor|].
  change (bytes_of (w :: ws)) with (Z.land w 255 :: Z.shiftr w 8 :: bytes_of ws).
  apply is_u16_spec in Hw. repeat constructor; [| |done].
  - apply is_u8_spec. change 255 with (Z.ones 8). rewrite Z.land_ones by lia.
    pose proof (Z.mod_pos_bound w (2 ^ 8)). lia.
  - apply is_u8_spec. rewrite Z.shiftr_div_pow2 by lia. change (2 ^ 8) with 256.
    split; [apply Z.div_pos; lia|]. apply Z.div_lt_upper_bound; lia.
Qed.

Lemma image_lookup ws (i : nat) :
  (length ws ≤ Z.to_nat msize)%nat → (i < Z.to_nat msize)%nat →
  image ws !! i = Some (default 0 (ws !! i)).
Proof.
  intros Hlen Hi. unfold image.
  destruct (decide (i < length ws)%nat) as [Hlt|Hge].
  - rewrite lookup_app_l by done.
    destruct (lookup_lt_is_Some_2 ws i Hlt) as [w ->]. done.
  - rewrite lookup_app_r by lia. rewrite (lookup_ge_None_2 ws i) by lia.
    cbn. apply lookup_replicate_2. lia.
Qed.

Lemma fill_wf bs e : ∀ nr v v',
  0 ≤ nr → Forall is_u8 bs → wf v → fill bs e nr v = Loaded v' → wf v'.
Proof.
  induction bs as [|b|b0 b1 rest IH] using pairs_ind; intros nr v v' Hnr Hbs Hv;
    rewrite fill_fresh_eq; case_decide; try done.
  - destruct e; try done. by intros [= <-].
  - apply Forall_cons in Hbs as [Hb0 Hbs]. apply Forall_cons in Hbs as [Hb1 Hbs].
    apply IH; [lia|done|].
    apply (wf_start _) in Hv.
    pose proof (wf_with_mem (Frame v 0 0) Hv (Z.to_nat nr)
                            (Z.lor b0 (Z.shiftl b1 8))) as Hwf.
    apply wf_frame_spec in Hwf; [by destruct Hwf|].
    apply is_u8_spec in Hb0, Hb1. apply is_u16_lor.
    + apply is_u16_spec. lia.
    + apply is_u16_spec. rewrite Z.shiftl_mul_pow2 by lia. lia.
Qed.

Lemma newVM_wf r v : Forall is_u8 (pending r) → newVM r = Loaded v → wf v.
Proof.
  intros Hbs. unfold newVM. apply fill_wf; [lia|done|].
  apply wf_spec. cbn [mem reg stack in_].
  rewrite !length_replicate. repeat split; try done.
  - apply Forall_replicate. by apply is_u16_spec.
  - apply Forall_replicate. by apply is_u16_spec.
Qed.

Lemma wf_feed input v : wf v → Forall is_u8 input → wf (feed input v).
Proof.
  rewrite !wf_spec. cbn. intros (? & ? & ? & ? & ? & ?) ?.
  repeat split; try done. by apply Forall_app.
Qed.

End LoaderMore.

(** X17. A program of fewer than 32768 words, written out as little-endian
    byte pairs and read back by newVM from a source that ends cleanly, is
    loaded without error into a fresh machine: word i of memory is word i
    of the program, and zero from the end of the program on. *)
Theorem loader_round_trip ws :
  Forall is_u16 ws → (length ws < Z.to_nat msize)%nat →
  Forall is_u8 (bytes_of ws)
  ∧ newVM (Reader (bytes_of ws) EOF) = Loaded (fresh (image ws))
  ∧ ∀ i : nat, (i < Z.to_nat msize)%nat → image ws !! i = Some (default 0 (ws !! i)).
Proof.
  intros Hws Hlen. split; [by apply bytes_of_bytes|]. split.
  - apply newVM_image; [|apply decode_bytes_of|done].
    rewrite length_bytes_of. apply Nat.even_spec. by exists (length ws).
  - intros i Hi. apply image_lookup; [lia|done].
Qed.

(** X18. On a source of fewer than 32768 words, newVM returns a machine
    holding the words read when the source ends cleanly after an even
    number of bytes, io.ErrUnexpectedEOF when it ends in the middle of a
    word, and the error of the source when it fails otherwise. *)
Theorem loader_short_source bs :
  (length (decode bs) < Z.to_nat msize)%nat →
  (Nat.even (length bs) = true →
   newVM (Reader bs EOF) = Loaded (fresh (image (decode bs))))
  ∧ (Nat.even (length bs) = false →
     newVM (Reader bs EOF) = Failed ErrUnexpectedEOF)
  ∧ (∀ msg, newVM (Reader bs (ErrOther msg)) = Failed (ErrOther msg)).
Proof.
  intros Hlen. repeat split.
  - intros Hev. by rewrite newVM_short, Hev.
  - intros Hev. by rewrite newVM_short, Hev.
  - intros msg. rewrite newVM_short by done. by destruct (Nat.even _).
Qed.

(** X19. On a source of 65536 bytes or more, however it ends, newVM panics
    on memory index 32768 once memory is full, before it looks at the rest
    of the source: no machine and no error are returned. *)
Theorem loader_long_source bs e :
  (2 * Z.to_nat msize ≤ length bs)%nat →
  newVM (Reader bs e) = LoadPanic (index_panic 32768 32768).
Proof.
  intros Hlen. unfold newVM. cbn [pending ending]. apply fill_overflow.
  - cbn [mem]. by rewrite length_replicate.
  - rewrite msize_eq. lia.
  - lia.
Qed.

(** X20. The types of the source are an invariant of the run: on a
    machine that newVM loaded from bytes, with bytes sent on the inbound
    channel, every frame a run reaches and the frame its next turn leaves,
    however that turn ends, have 32768 memory words and 8 registers, hold
    only 16-bit words in memory, registers, stack and instruction pointer,
    and only bytes on the inbound channel. *)
Theorem machine_stays_well_formed r v input s :
  Forall is_u8 (pending r) → newVM r = Loaded v → Forall is_u8 input →
  reachable (feed input v) s →
  wf_frame s ∧ wf_frame (post (turn s)).
Proof.
  intros Hbs Hv Hin Hs.
  assert (wf_frame s) as Hwf.
  { eapply reachable_wf; [|done]. apply wf_feed; [|done]. by eapply newVM_wf. }
  split; [done|]. by destruct (safe_turn s Hwf) as (? & _).
Qed.

(** ** The completion channel *)

Section Completion.

Lemma dblind_bind {A C} (c : M A) (k : A → M C) :
  done_blind c → (∀ a, done_blind (k a)) → done_blind (bind c k).
Proof.
  intros Hc Hk d s. unfold bind. rewrite (Hc d s).
  destruct (c s) as [[a|p| |] s' t]; cbn [res post touched]; try done.
  rewrite (Hk a d s'). by destruct (k a s').
Qed.

Lemma dblind_still {A} (x : frame → flow A) (t : frame → list Z) :
  (∀ d s, x (on_self (with_done d) s) = x s) →
  (∀ d s, t (on_self (with_done d) s) = t s) →
  done_blind (λ s, Ran (x s) s (t s)).
Proof. intros Hx Ht d s. cbn. by rewrite Hx, Ht. Qed.

Lemma dblind_update f :
  (∀ d s, f (on_self (with_done d) s) = on_self (with_done d) (f s)) →
  done_blind (update f).
Proof. intros Hf d s. unfold update. cbn. by rewrite Hf. Qed.

Lemma dblind_if {A} (b : bool) (c1 c2 : M A) :
  done_blind c1 → done_blind c2 → done_blind (if b then c1 else c2).
Proof. by destruct b. Qed.

Lemma dblind_load i : done_blind (load i).
Proof. intros d s. unfold load. cbn [self on_self mem with_done]. by case_match. Qed.

Lemma dblind_store i w : done_blind (store i w).
Proof.
  intros d s. unfold store. cbn [self on_self mem with_done]. by case_decide.
Qed.

Lemma dblind_load_reg i : done_blind (load_reg i).
Proof.
  intros d s. unfold load_reg. cbn [self on_self reg with_done]. by case_match.
Qed.

Lemma dblind_store_reg i w : done_blind (store_reg i w).
Proof.
  intros d s. unfold store_reg. cbn [self on_self reg with_done]. by case_decide.
Qed.

End Completion.

Ltac dblind_step :=
  first
    [ apply dblind_load | apply dblind_store
    | apply dblind_load_reg | apply dblind_store_reg
    | apply dblind_update; by intros
    | apply dblind_bind; [|intros ?] | apply dblind_if
    | apply (dblind_still (λ _, _) (λ _, _)); by intros
    | apply (dblind_still _ (λ _, _)); by intros
    | match goal with |- done_blind (match ?l with [] => _ | _ :: _ => _ end) =>
        destruct l end
    | match goal with |- done_blind (match ?o with Some _ => _ | None => _ end) =>
        destruct o end ].

Section CompletionRun.

Lemma dblind_get arg : done_blind (get arg).
Proof. unfold get, assertf, throw, unit_, reads. repeat dblind_step. Qed.

Lemma dblind_set arg val : done_blind (set arg val).
Proof. unfold set, assertf, throw, unit_, reads. repeat dblind_step. Qed.

Lemma dblind_pop : done_blind pop.
Proof. unfold pop, assertf, throw, unit_, reads. repeat dblind_step. Qed.

Lemma dblind_recv_in : done_blind recv_in.
Proof. unfold recv_in, return_, block, unit_, reads. repeat dblind_step. Qed.

Lemma dblind_exec op : done_blind (exec op).
Proof.
  switch_on op.
  all: unfold close_quit, push, send_out, throw, unit_, reads.
  all: repeat first [ apply dblind_get | apply dblind_set | apply dblind_pop
                    | apply dblind_recv_in | dblind_step ].
Qed.

Lemma dblind_turn : done_blind turn.
Proof.
  unfold turn, advance, return_, reads.
  repeat first [ apply dblind_exec | dblind_step ].
Qed.

Lemma dblind_loop d fuel : ∀ s,
  loop fuel (on_self (with_done d) s)
  = (λ r, Ran (res r) (on_self (with_done d) (post r)) (touched r)) <$> loop fuel s.
Proof.
  induction fuel as [|fuel IH]; intros s; [done|]. cbn [loop].
  rewrite (dblind_turn d s).
  destruct (turn s) as [[[]|p| |] s' t]; cbn [res post touched]; try done.
  rewrite IH. by destruct (loop fuel s') as [[]|].
Qed.

(** What [run] gives on a machine with another [done]. *)
Lemma run_with_done d fuel v err v' :
  run fuel v = Some (Exited err v') →
  run fuel (with_done d v) = Some (Exited err (with_done d v')).
Proof.
  unfold run. change (Frame (with_done d v) 0 0) with (on_self (with_done d) (Frame v 0 0)).
  rewrite dblind_loop. destruct (loop fuel _) as [r|]; [|done].
  cbn [fmap option_fmap option_map res post self on_self]. unfold deferred.
  cbn [out with_done].
  destruct (res r) as [[]|[msg|msg]| |]; try done;
    destruct (closed (out (self (post r)))); try done; by intros [= <- <-].
Qed.

End CompletionRun.

(** X21. The completion protocol of start and wait, for a run that returns
    err: before start, wait panics with "not started"; start runs the
    machine and publishes err on the completion channel, which it closes;
    the first wait receives err, every later wait receives nil, and a
    second start panics with "already running". The run itself does what
    it does on a machine that was never started. *)
Theorem completion_protocol fuel v err v' :
  done v = None → run fuel v = Some (Exited err v') →
  let published := with_done (Some (EChan [err] true)) v' in
  let received := with_done (Some (EChan [] true)) v' in
  wait v = inl (PString "not started")
  ∧ start fuel v = Some (inr (Exited err published))
  ∧ wait published = inr (Some (err, received))
  ∧ wait received = inr (Some (None, received))
  ∧ ∀ fuel', start fuel' published = Some (inl (PString "already running")).
Proof.
  intros Hd Hrun published received. unfold start, wait. rewrite Hd.
  rewrite (run_with_done _ _ _ _ _ Hrun). done.
Qed.

(** ** The controller *)

Section Controller.

Implicit Types (l s bs tail rest : list Z) (ls : list (list Z)).






















End Controller.




(** ** More concrete machines *)

Section MoreExamples.

(** add r0 32767 2 *)
Lemma alu_opcodes_witness :
  let s := Frame (fresh [9; 32768; 32767; 2]) 0 0 in
  turn s = Ran (Val tt) (wrote s 32768 1 4) [0; 2; 3; 1]
  ∧ (9 = 9 ∨ 9 = 10 → 0 ≤ alu 9 32767 2 ≤ 32767).
Proof.
  intros s.
  apply (alu_opcodes s 9 32768 32767 2); try reflexivity.
  - repeat constructor.
  - lia.
  - intros _. lia.
Defined.

(** not r0 0 *)
Lemma set_not_opcodes_witness :
  let s := Frame (fresh [14; 32768; 0]) 0 0 in
  turn s = Ran (Val tt) (wrote s 32768 32767 3) [0; 2; 1].
Proof.
  intros s.
  apply (set_not_opcodes s 14 32768 0); try reflexivity.
  - by right.
  - lia.
  - lia.
Defined.

(** out 300 *)
Lemma out_sends_low_byte_witness :
  let s := Frame (fresh [19; 300]) 0 0 in
  turn s = Ran (Val tt)
               (Frame (with_out (Chan [44] false) (self s)) 2 2) [0; 1]
  ∧ 0 ≤ 300 mod 256 < 256.
Proof.
  intros s. apply (out_sends_low_byte s 300); reflexivity.
Defined.

(** in r0, with no byte queued and then with two *)
Lemma in_receives_or_waits_witness :
  let s := Frame (fresh [20; 32768]) 0 0 in
  turn s = Ran Blocked (with_sz 1 s) [0]
  ∧ turn (on_self (feed [65; 66]) (post (turn s)))
    = Ran (Val tt)
          (Frame (with_reg (<[0%nat := 65]> (reg (self s))) (with_in [66] (self s)))
                 2 2)
          [0; 1].
Proof.
  intros s.
  destruct (in_receives_or_waits s 32768 eq_refl eq_refl eq_refl eq_refl
              ltac:(lia)) as [_ Hw].
  destruct (Hw eq_refl) as [Hblocked Hfed].
  split; [exact Hblocked|]. exact (Hfed 65 [66]).
Defined.

(** push 7; pop r1 *)
Lemma push_then_pop_witness :
  let s := Frame (fresh [2; 7; 3; 32769]) 0 0 in
  res (turn s) = Val tt
  ∧ turn (post (turn s))
    = Ran (Val tt)
          (Frame (with_reg (<[1%nat := 7]> (reg (self s))) (self s)) 4 2)
          [2; 3].
Proof.
  intros s. apply (push_then_pop s 7 32769); try reflexivity. lia.
Defined.

(** call 3; a word never executed; ret *)
Lemma call_then_ret_witness :
  let s := Frame (fresh [17; 3; 0; 18]) 0 0 in
  res (turn s) = Val tt
  ∧ ip (post (turn s)) = 3
  ∧ turn (post (turn s)) = Ran (Val tt) (Frame (self s) 2 0) [3].
Proof.
  intros s. apply (call_then_ret s 3); try reflexivity. lia.
Defined.

(** wmem 6 42; rmem r0 6 *)
Lemma wmem_then_rmem_witness :
  let s := Frame (fresh [16; 6; 42; 15; 32768; 6; 0]) 0 0 in
  let s1 := post (turn s) in
  res (turn s) = Val tt
  ∧ mem (self s1) = <[6%nat := 42]> (mem (self s))
  ∧ res (turn s1) = Val tt
  ∧ reg (self (post (turn s1))) = <[0%nat := 42]> (reg (self s))
  ∧ mem (self (post (turn s1))) = mem (self s1).
Proof.
  intros s s1. apply (wmem_then_rmem s 6 42 32768); try reflexivity.
  - cbn. lia.
  - lia.
Defined.

(** jmp 0 writes no memory, no stack and no register *)
Lemma state_footprint_witness :
  let s := Frame (fresh [6; 0]) 0 0 in
  (6 ≠ 16 → mem (self (post (turn s))) = mem (self s))
  ∧ (6 ≠ 2 → 6 ≠ 3 → 6 ≠ 17 → 6 ≠ 18 →
     stack (self (post (turn s))) = stack (self s))
  ∧ (6 ≤ 0 ∨ 6 = 2 ∨ 6 ≤ 6 ≤ 8 ∨ 16 ≤ 6 ≤ 19 ∨ 21 ≤ 6 →
     reg (self (post (turn s))) = reg (self s)).
Proof. intros s. apply (state_footprint s 6). reflexivity. Defined.

(** add r0 1 2 touches no channel *)
Lemma channel_footprint_witness :
  let s := Frame (feed [65] (fresh [9; 32768; 1; 2])) 0 0 in
  (9 ≠ 19 → out (self (post (turn s))) = out (self s))
  ∧ (9 ≠ 20 → in_ (self (post (turn s))) = in_ (self s))
  ∧ (9 ≠ 0 → quit (self (post (turn s))) = quit (self s))
  ∧ done (self (post (turn s))) = done (self s).
Proof. intros s. apply (channel_footprint s 9). reflexivity. Defined.

(** out 65; halt *)
Lemma output_only_grows_witness :
  let v := with_out (Chan [72] false) (fresh [19; 65; 0]) in
  let o := Exited None (with_out (Chan [72; 65] true) (with_quit true v)) in
  run 3 v = Some o
  ∧ (∃ more, sent (out (machine_of o)) = sent (out v) ++ more)
  ∧ (∀ err v', o = Exited err v' → closed (out v') = true)
  ∧ (∀ p v', o = Crashed p v' → closed (out v') = closed (out v)).
Proof.
  intros v o. split; [reflexivity|].
  apply (output_only_grows 3 v o). reflexivity.
Defined.

(** out 65; pop r0, on the empty stack *)
Lemma assertion_failures_are_returned_witness :
  let v := fresh [19; 65; 3; 32768] in
  let s := post (turn (Frame v 0 0)) in
  reachable v s
  ∧ ∃ fuel more, ∀ n,
      run (fuel + n) v
      = Some (Exited (Some "pop with empty stack")
                     (with_out (Chan (sent (out v) ++ more) true)
                               (self (post (turn s))))).
Proof.
  intros v s.
  assert (reachable v s) as Hs by (apply reach_turn; [apply reach_start|reflexivity]).
  split; [exact Hs|].
  apply (assertion_failures_are_returned v s "pop with empty stack" eq_refl Hs).
  reflexivity.
Defined.

(** the word 22 at address 0 *)
Lemma invalid_opcode_is_returned_witness :
  let v := fresh [22] in
  ∃ fuel, ∀ n,
    run (fuel + n) v
    = Some (Exited (Some ("invalid op " +:+ pretty 22 +:+ " at " +:+ pretty 0))
                   (with_out (Chan [] true) v)).
Proof.
  intros v.
  apply (invalid_opcode_is_returned v (Frame v 0 0) 22 eq_refl (reach_start v)
           eq_refl eq_refl).
  lia.
Defined.

(** nop; ret *)
Lemma empty_stack_is_returned_witness :
  let v := fresh [21; 18] in
  let s := post (turn (Frame v 0 0)) in
  ∃ fuel, ∀ n,
    run (fuel + n) v
    = Some (Exited (Some "pop with empty stack")
                   (with_out (Chan (sent (out (self s))) true) (self s))).
Proof.
  intros v s.
  assert (reachable v s) as Hs by (apply reach_turn; [apply reach_start|reflexivity]).
  apply (empty_stack_is_returned v s 18 eq_refl Hs eq_refl eq_refl); [by right|].
  reflexivity.
Defined.

(** nop; halt; out 65 *)
Lemma halt_opcode_ends_the_run_witness :
  let v := fresh [21; 0; 19; 65] in
  let s := post (turn (Frame v 0 0)) in
  ∃ fuel, ∀ n,
    run (fuel + n) v
    = Some (Exited None (with_out (Chan (sent (out (self s))) true)
                                  (with_quit true (self s)))).
Proof.
  intros v s.
  assert (reachable v s) as Hs by (apply reach_turn; [apply reach_start|reflexivity]).
  exact (halt_opcode_ends_the_run v s eq_refl Hs eq_refl eq_refl).
Defined.

(** out 65, never executed *)
Lemma halt_before_run_witness :
  let v := fresh [19; 65] in
  ∃ v1, halt v = inr v1
        ∧ run 1 v1 = Some (Exited None (with_out (Chan (sent (out v)) true) v1)).
Proof. intros v. exact (halt_before_run v 0 eq_refl eq_refl). Defined.

(** nop; nop; halt *)
Lemma nop_sled_witness :
  let v := fresh [21; 21; 0] in
  run 3 v = None
  ∧ run 5 v
    = Some (Exited None (with_out (Chan (sent (out v)) true) (with_quit true v))).
Proof.
  intros v. apply (nop_sled v 2 1 eq_refl eq_refl); [lia| |reflexivity].
  intros [|[|j]] Hj; [reflexivity|reflexivity|lia].
Defined.

(** out 65; halt *)
Lemma loader_round_trip_witness :
  let ws := [19; 65; 0] in
  Forall is_u8 (bytes_of ws)
  ∧ newVM (Reader (bytes_of ws) EOF) = Loaded (fresh (image ws))
  ∧ ∀ i : nat, (i < Z.to_nat msize)%nat → image ws !! i = Some (default 0 (ws !! i)).
Proof.
  intros ws. apply (loader_round_trip ws).
  - repeat constructor.
  - rewrite msize_eq. simpl. lia.
Defined.

(** a source that ends in the middle of its second word *)
Lemma loader_short_source_witness :
  let bs := [19; 0; 65] in
  (Nat.even (length bs) = true →
   newVM (Reader bs EOF) = Loaded (fresh (image (decode bs))))
  ∧ (Nat.even (length bs) = false →
     newVM (Reader bs EOF) = Failed ErrUnexpectedEOF)
  ∧ (∀ msg, newVM (Reader bs (ErrOther msg)) = Failed (ErrOther msg)).
Proof.
  intros bs. apply (loader_short_source bs). rewrite msize_eq. simpl. lia.
Defined.

(** 70000 bytes and a source that then fails *)
Lemma loader_long_source_witness :
  newVM (Reader (replicate (Z.to_nat 70000) 255) ErrUnexpectedEOF)
  = LoadPanic (index_panic 32768 32768).
Proof.
  apply (loader_long_source (replicate (Z.to_nat 70000) 255) ErrUnexpectedEOF).
  rewrite length_replicate, msize_eq. lia.
Defined.

(** in r0; out r0; halt, loaded from its bytes, with one byte sent *)
Lemma machine_stays_well_formed_witness :
  let ws := [20; 32768; 19; 32768; 0] in
  let v := fresh (image ws) in
  let s := Frame (feed [65] v) 0 0 in
  newVM (Reader (bytes_of ws) EOF) = Loaded v
  ∧ wf_frame s ∧ wf_frame (post (turn s)).
Proof.
  intros ws v s.
  assert (newVM (Reader (bytes_of ws) EOF) = Loaded v) as Hv.
  { apply newVM_image; [reflexivity|reflexivity|]. rewrite msize_eq. simpl. lia. }
  split; [exact Hv|].
  apply (machine_stays_well_formed (Reader (bytes_of ws) EOF) v [65] s).
  - repeat constructor.
  - exact Hv.
  - repeat constructor.
  - apply reach_start.
Defined.

(** out 65; halt *)
Lemma completion_protocol_witness :
  let v := fresh [19; 65; 0] in
  let v' := with_out (Chan [65] true) (with_quit true v) in
  let published := with_done (Some (EChan [None] true)) v' in
  let received := with_done (Some (EChan [] true)) v' in
  wait v = inl (PString "not started")
  ∧ start 3 v = Some (inr (Exited None published))
  ∧ wait published = inr (Some (None, received))
  ∧ wait received = inr (Some (None, received))
  ∧ ∀ fuel', start fuel' published = Some (inl (PString "already running")).
Proof.
  intros v v' published received.
  apply (completion_protocol 3 v None v'); reflexivity.
Defined.



(** nop, and the fetch behind a memory of one word *)
Lemma runtime_panics_end_the_process_witness :
  let v := fresh [21] in
  let s := post (turn (Frame v 0 0)) in
  res (turn s) = Panicked (index_panic 1 1)
  ∧ closed (out (self (post (turn s)))) = closed (out v)
  ∧ ∃ fuel, ∀ n,
      run (fuel + n) v = Some (Crashed assertion_panic (self (post (turn s)))).
Proof.
  intros v s.
  assert (reachable v s) as Hs by (apply reach_turn; [apply reach_start|reflexivity]).
  split; [reflexivity|].
  exact (runtime_panics_end_the_process v s _ Hs eq_refl).
Defined.

(** rmem r1 r0, the register r0 holding 40000 *)
Lemma out_of_range_access_crashes_witness :
  let v := with_reg [40000; 0; 0; 0; 0; 0; 0; 0] (fresh [15; 32769; 32768]) in
  res (get 2 (Frame v 0 0)) = Val 40000
  ∧ ∃ fuel, ∀ n, run (fuel + n) v = Some (Crashed assertion_panic v).
Proof.
  intros v. split; [reflexivity|].
  apply (out_of_range_access_crashes v (Frame v 0 0) (reach_start v) eq_refl).
  right. left. exists 40000. repeat split; reflexivity.
Defined.

(** set r0 5 *)
Lemma instructions_advance_by_their_width_witness :
  let s := Frame (fresh [1; 32768; 5]) 0 0 in
  res (turn s) = Val tt
  ∧ 0 ≤ 1 ≤ 21
  ∧ ip (post (turn s)) = u16 (ip s + width 1)
  ∧ sz (post (turn s)) = width 1.
Proof.
  intros s. split; [reflexivity|].
  apply (instructions_advance_by_their_width s 1 eq_refl eq_refl); [|reflexivity].
  rewrite !not_elem_of_cons. repeat split; try lia. apply not_elem_of_nil.
Defined.

End MoreExamples.
